(** * knapsackGenAlgo: a genetic algorithm for the knapsack problem

    A shallow embedding of [knapsackGenAlgo.py] and the properties of its
    fitness function, population management, genetic operators and
    evolution loop.

    Modelling conventions.
    - Python objects without [__eq__] compare by identity.  A [Box] carries
      its identity in the field [box_id], so that Leibniz equality of the
      record is the [==] of the source; [Chromosome] objects are mutable and
      shared, they live in a heap and are named by a reference.
    - Weights, values and fitness scores are Python integers, here [Z].
      [int(n / 2)] is a float division followed by a truncation toward
      zero.  [py_int_half] is that computation on an integer of any size:
      the quotient rounded to the nearest float of 53 significant bits,
      ties to even, an OverflowError beyond the float range.  Up to a
      magnitude of 2^53 + 2 the float quotient is exact and the result is
      [int_half], the quotient truncated ([Z.quot]); 2^53 + 3 is the first
      integer where the two differ.  [calc_fitness_py] is the fitness with
      no bound on the weights; [calc_fitness] is the fitness of weights in
      the exact range, and the one the evolution loop is stated with.
    - The pseudo-random generator is a tape of draws, [nat -> nat], read
      at a cursor; a call with [n] possible outcomes reduces the draw
      modulo [n], so every sequence of outcomes comes from some tape.
    - [print] calls have no effect on the state and are left out. *)

From Stdlib Require Import ZArith List Bool Arith Lia String Ascii.
From Stdlib Require Import QArith.
From Stdlib Require Import Permutation Sorted.
From Stdlib Require Import OrderedTypeEx.
Import ListNotations.

Local Open Scope Z_scope.

(* ================================================================== *)
(** * Part I: the program *)
(* ================================================================== *)

(** ** Box *)

Record Box : Type := mkBox {
  box_id : nat;      (* identity of the object *)
  name   : string;
  weight : Z;
  value  : Z
}.

Definition Box_eq_dec (a b : Box) : {a = b} + {a <> b}.
Proof.
  decide equality;
    [ apply Z.eq_dec | apply Z.eq_dec | apply string_dec | apply Nat.eq_dec ].
Defined.

(** [a == b] on boxes. *)
Definition box_eqb (a b : Box) : bool :=
  if Box_eq_dec a b then true else false.

(** [b in l] *)
Fixpoint contains (b : Box) (l : list Box) : bool :=
  match l with
  | [] => false
  | a :: l' => if box_eqb a b then true else contains b l'
  end.

(** [l1 == l2] on lists of boxes: same length, element-wise equal. *)
Fixpoint list_eqb (l1 l2 : list Box) : bool :=
  match l1, l2 with
  | [], [] => true
  | a :: l1', b :: l2' => box_eqb a b && list_eqb l1' l2'
  | _, _ => false
  end.

(** ** [sorted]

    Python's [sorted] is stable, also with [reverse=True]: elements with
    equal keys keep their relative order.  For a total preorder on the keys
    the stable sorted arrangement is unique, and insertion at the first
    admissible place computes it. *)

Section Sorting.
Context {A : Type}.
Variable le : A -> A -> bool.   (* [le a b]: [a] may stand before [b] *)

Fixpoint insert_by (a : A) (l : list A) : list A :=
  match l with
  | [] => [a]
  | b :: l' => if le a b then a :: b :: l' else b :: insert_by a l'
  end.

Fixpoint sort_by (l : list A) : list A :=
  match l with
  | [] => []
  | a :: l' => insert_by a (sort_by l')
  end.
End Sorting.

(** [sorted(l, key=lambda x: x.name)] *)
Definition name_le (a b : Box) : bool := String.leb (name a) (name b).
Definition sorted_by_name (l : list Box) : list Box := sort_by name_le l.

(** ** Chromosome *)

Record Chromosome : Type := mkChromosome {
  boxes        : list Box;
  total_weight : Z;
  total_value  : Z;
  fitness      : Z
}.

Definition set_boxes (self : Chromosome) (v : list Box) : Chromosome :=
  mkChromosome v (total_weight self) (total_value self) (fitness self).
Definition set_total_weight (self : Chromosome) (v : Z) : Chromosome :=
  mkChromosome (boxes self) v (total_value self) (fitness self).
Definition set_total_value (self : Chromosome) (v : Z) : Chromosome :=
  mkChromosome (boxes self) (total_weight self) v (fitness self).
Definition set_fitness (self : Chromosome) (v : Z) : Chromosome :=
  mkChromosome (boxes self) (total_weight self) (total_value self) v.

Definition sum_weight (self : Chromosome) : Z :=
  fold_left (fun sum i => sum + weight i) (boxes self) 0.

Definition sum_value (self : Chromosome) : Z :=
  fold_left (fun sum i => sum + value i) (boxes self) 0.

(** [int(n / 2)] *)
Definition int_half (n : Z) : Z := Z.quot n 2.

Definition ideal_weight_bonus : Z := 2.

Definition calc_fitness (self : Chromosome) : Z :=
  let '(fit_score, weight) :=
    fold_left (fun '(fit_score, w) i => (fit_score + value i, w + weight i))
              (boxes self) (0, 0) in
  if 120 <? weight then fit_score - int_half (weight - 120)
  else if weight =? 120 then fit_score + ideal_weight_bonus
  else fit_score.

(** *** [int(n / 2)] on integers of any size

    [n / 2] on an integer is the float nearest to the quotient, ties going
    to the float whose last significant bit is 0.  An integer of at most 53
    bits is a float and so is its half.  Of a longer integer the leading
    53 bits are kept, and rounded on the [s] bits dropped; the quotient is
    that significand scaled by [2 ^ (s - 1)], an integer, and the division
    raises OverflowError ([None]) when it reaches [2 ^ 1024]. *)

(** [n / 2 ^ s] rounded to the nearest integer, ties to even *)
Definition round_half_even (n s : Z) : Z :=
  let m := Z.shiftr n s in
  let r := n mod 2 ^ s in
  let half := 2 ^ (s - 1) in
  if (half <? r) || ((r =? half) && Z.odd m) then m + 1 else m.

(** [int(n / 2)] for [0 <= n] *)
Definition float_half (n : Z) : option Z :=
  if Z.log2 n <? 53 then Some (Z.quot n 2)
  else
    let s := Z.log2 n - 52 in
    let q := round_half_even n s * 2 ^ (s - 1) in
    if q <? 2 ^ 1024 then Some q else None.

(** [int(n / 2)]; rounding to nearest is symmetric about zero. *)
Definition py_int_half (n : Z) : option Z :=
  if n <? 0 then option_map Z.opp (float_half (- n)) else float_half n.

(** [calc_fitness] on weights of any size; [None] is an OverflowError. *)
Definition calc_fitness_py (self : Chromosome) : option Z :=
  let '(fit_score, weight) :=
    fold_left (fun '(fit_score, w) i => (fit_score + value i, w + weight i))
              (boxes self) (0, 0) in
  if 120 <? weight then
    option_map (fun penalty => fit_score - penalty) (py_int_half (weight - 120))
  else if weight =? 120 then Some (fit_score + ideal_weight_bonus)
  else Some fit_score.

(** ** The heap of chromosome objects *)

Definition ref := nat.

Definition empty_chromosome : Chromosome := mkChromosome [] 0 0 0.

Record State : Type := mkState {
  cursor : nat;                (* next draw of the generator *)
  heap   : list Chromosome     (* the chromosome objects, by reference *)
}.

(** A reference held by a Python list is never dangling; the default makes
    [deref] total. *)
Definition deref (h : list Chromosome) (r : ref) : Chromosome :=
  nth r h empty_chromosome.

Fixpoint list_set {A : Type} (i : nat) (v : A) (l : list A) : list A :=
  match l, i with
  | [], _ => []
  | _ :: l', O => v :: l'
  | a :: l', S i' => a :: list_set i' v l'
  end.

(** ** Exceptions, results and the two monads

    Every function but the re-draw loop of [genetic_algo] is made of
    bounded loops: it returns or raises ([M]).  The re-draw loop takes a
    fuel, and reports where it was left spinning when the fuel runs out
    ([FM]). *)

Inductive exn : Type := IndexError | ValueError.

Inductive Res (A : Type) : Type :=
| Ok (a : A) (s : State)
| Raise (e : exn).
Arguments Ok {A} a s.
Arguments Raise {A} e.

Definition M (A : Type) : Type := State -> Res A.

Definition ret {A} (a : A) : M A := fun s => Ok a s.
Definition raise {A} (e : exn) : M A := fun _ => Raise e.
Definition bind {A B} (m : M A) (k : A -> M B) : M B :=
  fun s => match m s with
           | Ok a s' => k a s'
           | Raise e => Raise e
           end.

Notation "x <- m ;; k" := (bind m (fun x => k))
  (at level 61, m at next level, right associativity).
Notation "' pat <- m ;; k" := (bind m (fun x => match x with pat => k end))
  (at level 61, pat pattern, m at next level, right associativity).

(** The re-draw loop entered at cursor [c], over the members [pop], with
    first parent [x]. *)
Inductive Outcome (A : Type) : Type :=
| Done (r : Res A)
| Spin (c : nat) (pop : list ref) (x : ref).
Arguments Done {A} r.
Arguments Spin {A} c pop x.

Definition FM (A : Type) : Type := nat -> State -> Outcome A.

Definition retF {A} (a : A) : FM A := fun _ s => Done (Ok a s).
Definition lift {A} (m : M A) : FM A := fun _ s => Done (m s).
Definition bindF {A B} (m : FM A) (k : A -> FM B) : FM B :=
  fun fuel s => match m fuel s with
                | Done (Ok a s') => k a fuel s'
                | Done (Raise e) => Done (Raise e)
                | Spin c pop x => Spin c pop x
                end.

Notation "x <~ m ;; k" := (bindF m (fun x => k))
  (at level 61, m at next level, right associativity).
Notation "' pat <~ m ;; k" := (bindF m (fun x => match x with pat => k end))
  (at level 61, pat pattern, m at next level, right associativity).

(** Heap access. *)
Definition load (r : ref) : M Chromosome :=
  fun s => Ok (deref (heap s) r) s.
Definition store (r : ref) (c : Chromosome) : M unit :=
  fun s => Ok tt (mkState (cursor s) (list_set r c (heap s))).
Definition alloc (c : Chromosome) : M ref :=
  fun s => Ok (List.length (heap s)) (mkState (cursor s) (heap s ++ [c])).

(** [l[i]] for [0 <= i] *)
Definition getitem {A} (l : list A) (i : nat) : M A :=
  match nth_error l i with
  | Some v => ret v
  | None => raise IndexError
  end.

(** [l.remove(b)]: drops the first occurrence, [ValueError] if there is none. *)
Fixpoint remove_first (b : Box) (l : list Box) : option (list Box) :=
  match l with
  | [] => None
  | a :: l' => if box_eqb a b then Some l'
               else option_map (cons a) (remove_first b l')
  end.

Definition list_remove (b : Box) (l : list Box) : M (list Box) :=
  match remove_first b l with
  | Some l' => ret l'
  | None => raise ValueError
  end.

(** [l[i] = v] for [0 <= i] *)
Definition setitem {A} (l : list A) (i : nat) (v : A) : M (list A) :=
  if (i <? List.length l)%nat then ret (list_set i v l) else raise IndexError.

(** ** Population *)

Record Population : Type := mkPopulation {
  population : list ref;
  size       : Z
}.

Definition Population_init (pop_size : Z) : Population :=
  mkPopulation [] pop_size.

(** [key=lambda x: x.fitness, reverse=True] *)
Definition fitness_ge (h : list Chromosome) (a b : ref) : bool :=
  fitness (deref h b) <=? fitness (deref h a).

Definition get_fittest (self : Population) : M Population :=
  fun s => Ok (mkPopulation (sort_by (fitness_ge (heap s)) (population self))
                            (size self)) s.

(** [int(len(l) / 2)] *)
Definition half_length {A} (l : list A) : Z :=
  int_half (Z.of_nat (List.length l)).

Definition cull (self : Population) : M Population :=
  self <- get_fittest self ;;
  let length := half_length (population self) in
  ret (mkPopulation (firstn (Z.to_nat length) (population self)) length).

Definition return_fittest (p : Population) : M (ref * Population) :=
  p <- get_fittest p ;;
  f <- getitem (population p) 0 ;;
  ret (f, p).

(** ** dupe_check *)

Definition dupe_check (x y : Chromosome) : bool :=
  let temp1 := sorted_by_name (boxes x) in
  let temp2 := sorted_by_name (boxes y) in
  if list_eqb temp1 temp2 then true else false.

(** ** The functions that draw *)

Section Draws.
Variable tape : nat -> nat.

Definition draw : M nat :=
  fun s => Ok (tape (cursor s)) (mkState (S (cursor s)) (heap s)).

(** One of [0 .. n-1], for [0 < n]. *)
Definition randbelow (n : nat) : M nat :=
  d <- draw ;; ret (d mod n)%nat.

(** [random.randint(a, b)] *)
Definition randint (a b : Z) : M Z :=
  if b <? a then raise ValueError
  else k <- randbelow (Z.to_nat (b - a + 1)) ;; ret (a + Z.of_nat k).

(** [random.choice(seq)] *)
Definition choice {A} (seq : list A) : M A :=
  match seq with
  | [] => raise IndexError
  | d :: _ => i <- randbelow (List.length seq) ;; ret (nth i seq d)
  end.

(** [random.shuffle(x)]:
    [for i in reversed(range(1, len(x))): j = randbelow(i+1); x[i], x[j] = x[j], x[i]] *)
Fixpoint shuffle_loop {A} (idx : list nat) (x : list A) : M (list A) :=
  match idx with
  | [] => ret x
  | i :: idx' =>
      j <- randbelow (i + 1) ;;
      xi <- getitem x i ;;
      xj <- getitem x j ;;
      x <- setitem x i xj ;;
      x <- setitem x j xi ;;
      shuffle_loop idx' x
  end.

Definition shuffle {A} (x : list A) : M (list A) :=
  shuffle_loop (rev (seq 1 (List.length x - 1))) x.

(** [Chromosome.gen_chromosome]; the second component is [box_list]
    after the call, which shuffles it in place. *)
Fixpoint gen_chromosome_loop (idx : list nat) (box_list chrom : list Box)
  : M (list Box) :=
  match idx with
  | [] => ret chrom
  | i :: idx' =>
      b <- getitem box_list i ;;
      gen_chromosome_loop idx' box_list (chrom ++ [b])
  end.

Definition gen_chromosome (box_list : list Box) : M (list Box * list Box) :=
  let chrom := [] in
  if (List.length box_list =? 0)%nat then ret (chrom, box_list)
  else
    box_list <- shuffle box_list ;;
    chrom <- gen_chromosome_loop (seq 0 3) box_list chrom ;;
    ret (chrom, box_list).

(** [Chromosome(boxes)]: a new object. *)
Definition Chromosome_init (box_list : list Box) : M (ref * list Box) :=
  '(genes, box_list) <- gen_chromosome box_list ;;
  let self := mkChromosome genes 0 0 0 in
  let self := set_total_weight self (sum_weight self) in
  let self := set_total_value self (sum_value self) in
  let self := set_fitness self (calc_fitness self) in
  r <- alloc self ;;
  ret (r, box_list).

Fixpoint generate_population_loop (n : nat) (self : Population)
         (box_list : list Box) : M (Population * list Box) :=
  match n with
  | O => ret (self, box_list)
  | S n' =>
      '(chrom, box_list) <- Chromosome_init box_list ;;
      generate_population_loop n'
        (mkPopulation (population self ++ [chrom]) (size self)) box_list
  end.

Definition generate_population (self : Population) (box_list : list Box)
  : M (Population * list Box) :=
  generate_population_loop (Z.to_nat (size self)) self box_list.

(** *** crossover *)

Fixpoint crossover_loop (idx : list nat) (temp1 temp2 baby_boxes : list Box)
  : M (list Box) :=
  match idx with
  | [] => ret baby_boxes
  | i :: idx' =>
      which <- randint 0 1 ;;
      if which =? 0 then
        t1 <- getitem temp1 i ;;
        if contains t1 baby_boxes then
          t2 <- getitem temp2 i ;;
          crossover_loop idx' temp1 temp2 (baby_boxes ++ [t2])
        else
          crossover_loop idx' temp1 temp2 (baby_boxes ++ [t1])
      else
        t2 <- getitem temp2 i ;;
        if contains t2 baby_boxes then
          t1 <- getitem temp1 i ;;
          crossover_loop idx' temp1 temp2 (baby_boxes ++ [t1])
        else
          crossover_loop idx' temp1 temp2 (baby_boxes ++ [t2])
  end.

(** The child is a new object unless the parents hold the same boxes, in
    which case it is the first parent itself.  The appended genes reach the
    heap in one [store]: no other object is touched in between. *)
Definition crossover (x y : ref) : M ref :=
  cx <- load x ;;
  cy <- load y ;;
  if dupe_check cx cy then ret x
  else
    '(baby, _) <- Chromosome_init [] ;;
    let temp1 := sorted_by_name (boxes cx) in
    let temp2 := sorted_by_name (boxes cy) in
    self <- load baby ;;
    genes <- crossover_loop (seq 0 (List.length temp1)) temp1 temp2 (boxes self) ;;
    _ <- store baby (set_boxes self genes) ;;
    ret baby.

(** *** mutation *)

Definition mutant_prob (probability : Q) : M bool :=
  let probability := (probability * 10)%Q in
  temp <- randint 0 10 ;;
  if Qle_bool (inject_Z temp) probability then ret true else ret false.

(** [for i in baby.boxes: if i in temp_list: temp_list.remove(i)] *)
Fixpoint remove_present (genes temp_list : list Box) : M (list Box) :=
  match genes with
  | [] => ret temp_list
  | i :: genes' =>
      if contains i temp_list then
        temp_list <- list_remove i temp_list ;;
        remove_present genes' temp_list
      else remove_present genes' temp_list
  end.

Fixpoint mutate_loop (probability : Q) (idx : list nat)
         (baby_boxes temp_list : list Box) : M (list Box) :=
  match idx with
  | [] => ret baby_boxes
  | j :: idx' =>
      m <- mutant_prob probability ;;
      if m then
        b <- choice temp_list ;;
        baby_boxes <- setitem baby_boxes j b ;;
        bj <- getitem baby_boxes j ;;
        temp_list <- list_remove bj temp_list ;;
        mutate_loop probability idx' baby_boxes temp_list
      else mutate_loop probability idx' baby_boxes temp_list
  end.

(** The object [baby] is changed in place and returned. *)
Definition mutate (baby : ref) (probability : Q) (box_list : list Box)
  : M ref :=
  self <- load baby ;;
  temp_list <- remove_present (boxes self) box_list ;;
  genes <- mutate_loop probability (seq 0 (List.length (boxes self)))
                       (boxes self) temp_list ;;
  _ <- store baby (set_boxes self genes) ;;
  ret baby.

(** *** genetic_algo *)

Definition MUTANT_PROB : Q := 30 # 100.
Definition MAX_SCORE : Z := 22.

(** [while x == y: y = random.choice(population.population)] *)
Fixpoint redraw (fuel : nat) (c : nat) (pop : list ref) (x y : ref)
  : State -> Outcome ref :=
  fun s =>
    if (x =? y)%nat then
      match fuel with
      | O => Spin c pop x
      | S fuel' =>
          match choice pop s with
          | Ok y' s' => redraw fuel' c pop x y' s'
          | Raise e => Done (Raise e)
          end
      end
    else Done (Ok y s).

Definition redraw_loop (pop : list ref) (x y : ref) : FM ref :=
  fun fuel s => redraw fuel (cursor s) pop x y s.

(** One pass of the inner loop body: the child appended to [nextgen]. *)
Definition breed (pop : Population) (box_list : list Box) : FM ref :=
  x <~ lift (choice (population pop)) ;;
  y <~ lift (choice (population pop)) ;;
  y <~ redraw_loop (population pop) x y ;;
  lift (
    child <- crossover x y ;;
    child <- mutate child MUTANT_PROB box_list ;;
    self <- load child ;;
    let self := set_fitness self (calc_fitness self) in
    let self := set_total_weight self (sum_weight self) in
    let self := set_total_value self (sum_value self) in
    _ <- store child self ;;
    ret child).

Fixpoint build_nextgen (n : nat) (pop : Population) (box_list : list Box)
         (nextgen : Population) : FM Population :=
  match n with
  | O => retF nextgen
  | S n' =>
      child <~ breed pop box_list ;;
      build_nextgen n' pop box_list
        (mkPopulation (population nextgen ++ [child]) (size nextgen))
  end.

(** The generations still to run.  The result is what [genetic_algo]
    returns ([None] for [best] never assigned), with the two population
    objects as the call leaves them. *)
Fixpoint generations (n : nat) (pop : Population) (box_list : list Box)
         (nextgen : Population) : FM (option ref * Population * Population) :=
  match n with
  | O => retF (None, pop, nextgen)
  | S n' =>
      nextgen <~ build_nextgen (Z.to_nat (size nextgen)) pop box_list nextgen ;;
      '(fittest, nextgen) <~ lift (return_fittest nextgen) ;;
      f <~ lift (load fittest) ;;
      if fitness f =? MAX_SCORE then
        '(best, nextgen) <~ lift (return_fittest nextgen) ;;
        retF (Some best, pop, nextgen)
      else
        let pop := mkPopulation (population nextgen) (size pop) in
        pop <~ lift (cull pop) ;;
        let nextgen := mkPopulation [] (size nextgen) in
        generations n' pop box_list nextgen
  end.

Definition genetic_algo (pop : Population) (box_list : list Box)
  : FM (option ref * Population * Population) :=
  let nextgen := Population_init (size pop) in
  generations 5 pop box_list nextgen.

(** *** The driver, up to the return of [genetic_algo]; the run of the
    reference configuration is [driver fuel initial_state] *)

Definition the_boxes : list Box :=
  [ mkBox 0 "a" 20 6; mkBox 1 "b" 30 5; mkBox 2 "c" 60 8; mkBox 3 "d" 90 7;
    mkBox 4 "e" 50 6; mkBox 5 "f" 70 9; mkBox 6 "g" 30 4 ].

Definition POP_SIZE : Z := 35.

Definition initial_state : State := mkState 0 [].

Definition driver : FM (option ref * Population * Population) :=
  '(pop, box_list) <~ lift (generate_population (Population_init POP_SIZE) the_boxes) ;;
  genetic_algo pop box_list.

End Draws.

(** ** A sequence of draws that collapses the population

    The first 210 draws, those of the 35 shuffles, are 0: the initial
    population then holds the boxes [b; c; d] both in member 0 and in
    member 7.  The next 175 draws are, for each of the 35 children, 0 and 7
    for the two parents and three draws of 10 for [mutant_prob]: the parents
    are two objects, [dupe_check] finds the same boxes in them, [crossover]
    returns member 0 itself and no gene is mutated.  The draws from 385 on
    are [rest], any draws at all. *)
Definition lock_tape (rest : nat -> nat) (n : nat) : nat :=
  if (n <? 210)%nat then 0%nat
  else if (n <? 385)%nat then
         match ((n - 210) mod 5)%nat with
         | 0%nat => 0%nat
         | 1%nat => 7%nat
         | _ => 10%nat
         end
       else rest n.

(** ** The end of the script

    After [genetic_algo] the script prints the winner: the fields
    [total_value], [fitness] and [total_weight] of [best], then name, weight
    and value of each of its boxes.  With [best] equal to [None] the first
    of these reads raises [AttributeError].  [None] stands for a run left in
    a re-draw loop. *)

Inductive ScriptEnd : Type :=
| Printed (total_value fitness total_weight : Z) (lines : list (string * Z * Z))
| AttributeError
| Raised (e : exn).

Definition script (tape : nat -> nat) (fuel : nat) : option ScriptEnd :=
  match driver tape fuel initial_state with
  | Done (Ok (Some best, _, _) s) =>
      let best := deref (heap s) best in
      Some (Printed (total_value best) (fitness best) (total_weight best)
                    (map (fun x => (name x, weight x, value x)) (boxes best)))
  | Done (Ok (None, _, _) _) => Some AttributeError
  | Done (Raise e) => Some (Raised e)
  | Spin _ _ _ => None
  end.

(** ** Predicates of the statements *)

(** Non-increasing in fitness, with the fitness read in the heap [h]. *)
Definition descending (h : list Chromosome) (l : list ref) : Prop :=
  StronglySorted (fun a b => fitness (deref h b) <= fitness (deref h a)) l.

(** Distinct boxes of [l] bear distinct names. *)
Definition distinct_names (l : list Box) : Prop :=
  forall a b, In a l -> In b l -> name a = name b -> a = b.

(** The catalog items that are not among [genes], in catalog order: the
    available pool of a mutation. *)
Definition available (genes box_list : list Box) : list Box :=
  filter (fun a => negb (contains a genes)) box_list.

(** The strict order of the names, and a box whose name is strictly below
    every name of [l]. *)
Definition name_lt (a b : Box) : Prop :=
  String.compare (name a) (name b) = Lt.

Definition below_all (b : Box) (l : list Box) : Prop :=
  Forall (name_lt b) l.

(** What [random.choice(l)] returns on the draw at cursor [c]; [None]
    when it raises. *)
Definition pick {A : Type} (tape : nat -> nat) (c : nat) (l : list A) : option A :=
  match l with
  | [] => None
  | d :: _ => Some (nth (tape c mod List.length l) l d)
  end.

(** The re-draw loop entered at cursor [c] exits: one of its draws does
    not select the first parent [x] again. *)
Definition exits (tape : nat -> nat) (c : nat) (pop : list ref) (x : ref) : Prop :=
  exists k, pick tape (c + k)%nat pop <> Some x.

(** A computation with fuel: more fuel does not change a result ([mono]);
    more fuel leaves it spinning in the same loop unless that loop exits
    ([prog]); every loop it is left spinning in exits ([fair]); it returns
    or raises for some fuel ([terminates]). *)
Definition mono {A : Type} (m : FM A) : Prop :=
  forall f f' s r, (f <= f')%nat -> m f s = Done r -> m f' s = Done r.

Definition prog (tape : nat -> nat) {A : Type} (m : FM A) : Prop :=
  forall f f' s c pop x,
    (f <= f')%nat -> m f s = Spin c pop x ->
    m f' s = Spin c pop x \/ exits tape c pop x.

Definition fair (tape : nat -> nat) {A : Type} (m : FM A) (s : State) : Prop :=
  forall f c pop x, m f s = Spin c pop x -> exits tape c pop x.

Definition terminates {A : Type} (m : FM A) (s : State) : Prop :=
  exists f r, m f s = Done r.

Definition good (tape : nat -> nat) {A : Type} (m : FM A) : Prop :=
  mono m /\ prog tape m /\ forall s, fair tape m s -> terminates m s.

(** A result, or an outcome, that is no exception and satisfies [Q]; an
    outcome left spinning satisfies every [Q]. *)
Definition okM {A : Type} (Q : A -> State -> Prop) (r : Res A) : Prop :=
  match r with
  | Ok a s => Q a s
  | Raise _ => False
  end.

Definition okF {A : Type} (Q : A -> State -> Prop) (o : Outcome A) : Prop :=
  match o with
  | Done (Ok a s) => Q a s
  | Done (Raise _) => False
  | Spin _ _ _ => True
  end.

(** Genes as the data model wants them: [k] pairwise-distinct boxes of the
    catalog. *)
Definition wf_genes (k : nat) (catalog genes : list Box) : Prop :=
  NoDup genes /\ List.length genes = k /\ incl genes catalog.

(** The derived fields of a chromosome agree with its genes. *)
Definition consistent (c : Chromosome) : Prop :=
  fitness c = calc_fitness c
  /\ total_weight c = sum_weight c
  /\ total_value c = sum_value c.

(** Every object of the heap satisfies [P]; every reference of [l] names an
    object of the heap. *)
Definition objs (P : Chromosome -> Prop) (h : list Chromosome) : Prop :=
  forall r, (r < List.length h)%nat -> P (deref h r).

Definition live (h : list Chromosome) (l : list ref) : Prop :=
  forall r, In r l -> (r < List.length h)%nat.

(** A catalog that chromosomes of [k] genes can be bred over: distinct
    boxes, told apart by their names, enough of them to replace every gene
    of a chromosome by a box outside of it. *)
Definition wf_catalog (k : nat) (catalog : list Box) : Prop :=
  NoDup catalog /\ distinct_names catalog /\ (2 * k <= List.length catalog)%nat.

(** The state of a run in good order: every chromosome of the heap has
    [k] pairwise-distinct genes of the catalog, and derived fields that
    agree with them. *)
Definition well_formed (k : nat) (catalog : list Box) (s : State) : Prop :=
  objs (fun c => wf_genes k catalog (boxes c)) (heap s)
  /\ objs consistent (heap s).

(** What [genetic_algo] may leave behind after [n] generations that breed
    [N] children each from the population [pop]: a chromosome returned is
    live, of stored and real fitness [MAX_SCORE], with well-formed genes, and
    the buffer it comes from holds its [N] members; with nothing returned the
    buffer is empty and, a generation having run, the population holds the
    [floor(N/2)] survivors of the last cull. *)
Definition run_post (k : nat) (catalog : list Box) (N n : nat) (pop : Population)
           (r : option ref * Population * Population) (s' : State) : Prop :=
  well_formed k catalog s'
  /\ match r with
     | (Some b, _, nextgen') =>
         (b < List.length (heap s'))%nat
         /\ fitness (deref (heap s') b) = MAX_SCORE
         /\ calc_fitness (deref (heap s') b) = MAX_SCORE
         /\ wf_genes k catalog (boxes (deref (heap s') b))
         /\ List.length (population nextgen') = N
     | (None, pop', nextgen') =>
         population nextgen' = []
         /\ ((n = 0%nat /\ pop' = pop)
             \/ ((0 < n)%nat
                 /\ List.length (population pop') = (N / 2)%nat
                 /\ size pop' = Z.of_nat (N / 2)))
     end.

(* ================================================================== *)
(** * Part II: properties *)
(* ================================================================== *)

(** ** Fitness *)

Lemma fitness_fold_split (l : list Box) (f w : Z) :
  fold_left (fun '(fit_score, w) i => (fit_score + value i, w + weight i)) l (f, w)
  = (fold_left (fun sum i => sum + value i) l f,
     fold_left (fun sum i => sum + weight i) l w).
Proof.
  revert f w; induction l as [|b l IH]; intros f w; simpl.
  - reflexivity.
  - apply IH.
Qed.

Lemma int_half_floor (n : Z) : 0 <= n -> int_half n = n / 2.
Proof.
  intros Hn. unfold int_half. apply Z.quot_div_nonneg; lia.
Qed.

(** Up to [2 ^ 53 + 2] the float quotient is exact: [int(n / 2)] is the
    quotient truncated. *)
Lemma py_int_half_exact (n : Z) :
  0 <= n <= 2 ^ 53 + 2 -> py_int_half n = Some (int_half n).
Proof.
  intros Hn. unfold py_int_half.
  destruct (Z.ltb_spec n 0) as [Hneg|_]; [lia|].
  unfold float_half.
  destruct (Z.ltb_spec (Z.log2 n) 53) as [Hlog|Hlog]; [reflexivity|].
  assert (Hbig : 2 ^ 53 <= n).
  { destruct (Z.lt_ge_cases n (2 ^ 53)) as [Hlt|Hge]; [|exact Hge].
    destruct (Z.eq_dec n 0) as [->|Hnz];
      [change (Z.log2 0) with 0 in Hlog; lia|].
    apply Z.log2_lt_pow2 in Hlt; lia. }
  change (2 ^ 53) with 9007199254740992 in Hn, Hbig.
  assert (Hcases : n = 9007199254740992 \/ n = 9007199254740993
                   \/ n = 9007199254740994) by lia.
  destruct Hcases as [Hc | [Hc | Hc]]; rewrite Hc; vm_compute; reflexivity.
Qed.

(** In that range [calc_fitness] is the fitness the program computes. *)
Lemma calc_fitness_py_exact (self : Chromosome) :
  sum_weight self - 120 <= 2 ^ 53 + 2 ->
  calc_fitness_py self = Some (calc_fitness self).
Proof.
  unfold calc_fitness_py, calc_fitness, sum_weight.
  rewrite fitness_fold_split.
  generalize (fold_left (fun sum i => sum + value i) (boxes self) 0).
  generalize (fold_left (fun sum i => sum + weight i) (boxes self) 0).
  intros w v Hw.
  destruct (Z.ltb_spec 120 w) as [Hgt|Hle].
  - rewrite py_int_half_exact by lia. reflexivity.
  - destruct (w =? 120); reflexivity.
Qed.

(** C1.  For a chromosome whose total weight exceeds 120 by at most
    [2 ^ 53 + 2], the fitness computed by [calc_fitness] is the sum of the
    genes' values, minus [floor((total_weight - 120) / 2)] when the genes'
    total weight exceeds 120, plus 2 when it is exactly 120, and nothing
    more when it is below 120; in one formula,
    [sum(values) - max(0, floor((w - 120) / 2)) + (2 if w == 120 else 0)]. *)
Theorem calc_fitness_formula_in_float_range (self : Chromosome) :
  sum_weight self - 120 <= 2 ^ 53 + 2 ->
  calc_fitness_py self
  = Some (sum_value self - Z.max 0 ((sum_weight self - 120) / 2)
          + (if sum_weight self =? 120 then 2 else 0))
  /\ (120 < sum_weight self ->
      calc_fitness_py self = Some (sum_value self - (sum_weight self - 120) / 2))
  /\ (sum_weight self = 120 -> calc_fitness_py self = Some (sum_value self + 2))
  /\ (sum_weight self < 120 -> calc_fitness_py self = Some (sum_value self)).
Proof.
  unfold calc_fitness_py, sum_value, sum_weight.
  rewrite fitness_fold_split.
  generalize (fold_left (fun sum i => sum + value i) (boxes self) 0).
  generalize (fold_left (fun sum i => sum + weight i) (boxes self) 0).
  intros w v Hrange. unfold ideal_weight_bonus.
  destruct (Z.ltb_spec 120 w) as [Hgt|Hle].
  - rewrite py_int_half_exact by lia. rewrite int_half_floor by lia.
    cbn [option_map].
    assert (0 <= (w - 120) / 2) by (apply Z.div_pos; lia).
    destruct (Z.eqb_spec w 120); [lia|].
    split; [|split; [|split]]; intros; try lia; f_equal; lia.
  - destruct (Z.eqb_spec w 120) as [He|Hne].
    + replace ((w - 120) / 2) with 0 by (rewrite He; reflexivity).
      split; [|split; [|split]]; intros; try lia; f_equal; lia.
    + assert ((w - 120) / 2 < 0) by (apply Z.div_lt_upper_bound; lia).
      split; [|split; [|split]]; intros; try lia; f_equal; lia.
Qed.

(** At the end of the range: a total weight of [2 ^ 53 + 122]. *)
Lemma calc_fitness_formula_in_float_range_witness :
  let self := mkChromosome [mkBox 0 "a" 20 6; mkBox 1 "b" 30 5;
                            mkBox 7 "h" 9007199254741064 9] 0 0 0 in
  sum_weight self - 120 <= 2 ^ 53 + 2
  /\ calc_fitness_py self = Some (20 - 4503599627370497).
Proof.
  intros self.
  assert (Hrange : sum_weight self - 120 <= 2 ^ 53 + 2)
    by (vm_compute; discriminate).
  split; [exact Hrange|].
  exact (proj1 (proj2 (calc_fitness_formula_in_float_range self Hrange)) eq_refl).
Defined.

(** One more, a total weight of [2 ^ 53 + 123]: the quotient
    [(2 ^ 53 + 3) / 2] lies half-way between two floats and is rounded up
    to [2 ^ 52 + 2]; the penalty is 4503599627370498, and the floor is
    4503599627370497. *)
Lemma calc_fitness_rounds_above_float_range :
  let self := mkChromosome [mkBox 0 "a" 20 6; mkBox 1 "b" 30 5;
                            mkBox 7 "h" 9007199254741065 9] 0 0 0 in
  sum_weight self = 2 ^ 53 + 123
  /\ calc_fitness_py self = Some (20 - 4503599627370498)
  /\ calc_fitness_py self
     <> Some (sum_value self - Z.max 0 ((sum_weight self - 120) / 2)
              + (if sum_weight self =? 120 then 2 else 0)).
Proof.
  intros self. split; [reflexivity|]. split; [vm_compute; reflexivity|].
  vm_compute. discriminate.
Qed.

(** ** Sorting *)

Section SortingFacts.
Context {A : Type}.
Variable le : A -> A -> bool.

Let R (a b : A) : Prop := le a b = true.

Lemma insert_by_perm (a : A) (l : list A) :
  Permutation (insert_by le a l) (a :: l).
Proof.
  induction l as [|b l IH]; simpl.
  - apply Permutation_refl.
  - destruct (le a b).
    + apply Permutation_refl.
    + eapply perm_trans; [apply perm_skip, IH | apply perm_swap].
Qed.

Lemma sort_by_perm (l : list A) : Permutation (sort_by le l) l.
Proof.
  induction l as [|a l IH]; simpl.
  - constructor.
  - eapply perm_trans; [apply insert_by_perm | apply perm_skip, IH].
Qed.

Lemma sort_by_length (l : list A) :
  List.length (sort_by le l) = List.length l.
Proof. apply Permutation_length, sort_by_perm. Qed.

(** A list in order is left as it is: the sort is idempotent. *)
Lemma insert_by_front (a : A) (l : list A) :
  Forall (R a) l -> insert_by le a l = a :: l.
Proof.
  intros H. destruct l as [|b l]; simpl; [reflexivity|].
  inversion H as [|? ? Hab _]; subst. unfold R in Hab. now rewrite Hab.
Qed.

Lemma sort_by_sorted_id (l : list A) :
  StronglySorted R l -> sort_by le l = l.
Proof.
  induction 1 as [|a l Hs IH Hall]; simpl; [reflexivity|].
  rewrite IH. now apply insert_by_front.
Qed.

Hypothesis le_total : forall a b, le a b = true \/ le b a = true.
Hypothesis le_trans : forall a b c, le a b = true -> le b c = true -> le a c = true.

Lemma insert_by_sorted (a : A) (l : list A) :
  StronglySorted R l -> StronglySorted R (insert_by le a l).
Proof.
  induction 1 as [|b l Hs IH Hall]; simpl.
  - repeat constructor.
  - destruct (le a b) eqn:Hab.
    + constructor; [constructor; assumption|].
      constructor; [exact Hab|].
      eapply Forall_impl; [|exact Hall].
      intros c Hbc. exact (le_trans _ _ _ Hab Hbc).
    + constructor; [exact IH|].
      assert (Hba : R b a) by (destruct (le_total a b); [congruence|assumption]).
      eapply Permutation_Forall;
        [apply Permutation_sym, insert_by_perm|].
      constructor; assumption.
Qed.

Lemma sort_by_sorted (l : list A) : StronglySorted R (sort_by le l).
Proof.
  induction l as [|a l IH]; simpl; [constructor|].
  now apply insert_by_sorted.
Qed.

Lemma sort_by_idempotent (l : list A) :
  sort_by le (sort_by le l) = sort_by le l.
Proof. apply sort_by_sorted_id, sort_by_sorted. Qed.
End SortingFacts.

(** Two arrangements in order of the same elements coincide when the order
    is antisymmetric on them. *)
Lemma sorted_perm_unique {A : Type} (R : A -> A -> Prop) (l1 l2 : list A) :
  (forall a b, In a l1 -> In b l1 -> R a b -> R b a -> a = b) ->
  StronglySorted R l1 -> StronglySorted R l2 ->
  Permutation l1 l2 -> l1 = l2.
Proof.
  revert l2; induction l1 as [|a l1 IH]; intros l2 Hanti H1 H2 Hp.
  - now apply Permutation_nil in Hp.
  - destruct l2 as [|b l2].
    + now apply Permutation_sym, Permutation_nil in Hp.
    + inversion H1 as [|? ? Hs1 Ha]; subst.
      inversion H2 as [|? ? Hs2 Hb]; subst.
      assert (Hab : a = b).
      { assert (Hin_b : In b (a :: l1))
          by (eapply Permutation_in; [apply Permutation_sym, Hp | now left]).
        assert (Hin_a : In a (b :: l2))
          by (eapply Permutation_in; [apply Hp | now left]).
        destruct Hin_b as [->|Hb1]; [reflexivity|].
        destruct Hin_a as [->|Ha2]; [reflexivity|].
        rewrite Forall_forall in Ha, Hb.
        apply Hanti; [now left | now right | now apply Ha | now apply Hb]. }
      subst b. f_equal.
      apply IH; try assumption.
      * intros x y Hx Hy. apply Hanti; now right.
      * eapply Permutation_cons_inv; exact Hp.
Qed.

Lemma StronglySorted_weaken {A : Type} (R R' : A -> A -> Prop) (l : list A) :
  (forall a b, R a b -> R' a b) -> StronglySorted R l -> StronglySorted R' l.
Proof.
  intros HR. induction 1 as [|a l Hs IH Hall]; constructor; [assumption|].
  eapply Forall_impl; [|exact Hall]. intros b. apply HR.
Qed.

(** The order on names: the lexicographic order of [String.compare]. *)
Lemma string_leb_trans (a b c : string) :
  String.leb a b = true -> String.leb b c = true -> String.leb a c = true.
Proof.
  unfold String.leb.
  destruct (String.compare a b) eqn:Hab; try discriminate;
    destruct (String.compare b c) eqn:Hbc; try discriminate; intros _ _.
  - apply String.compare_eq_iff in Hab; subst. now rewrite Hbc.
  - apply String.compare_eq_iff in Hab; subst. now rewrite Hbc.
  - apply String.compare_eq_iff in Hbc; subst. now rewrite Hab.
  - apply String_as_OT.cmp_lt in Hab, Hbc.
    pose proof (String_as_OT.lt_trans _ _ _ Hab Hbc) as Hac.
    apply String_as_OT.cmp_lt in Hac.
    unfold String_as_OT.cmp in Hac. now rewrite Hac.
Qed.

Lemma name_le_total (a b : Box) : name_le a b = true \/ name_le b a = true.
Proof. apply String.leb_total. Qed.

Lemma name_le_trans (a b c : Box) :
  name_le a b = true -> name_le b c = true -> name_le a c = true.
Proof. apply string_leb_trans. Qed.

Lemma fitness_ge_total h (a b : ref) :
  fitness_ge h a b = true \/ fitness_ge h b a = true.
Proof. unfold fitness_ge. rewrite !Z.leb_le. lia. Qed.

Lemma fitness_ge_trans h (a b c : ref) :
  fitness_ge h a b = true -> fitness_ge h b c = true -> fitness_ge h a c = true.
Proof. unfold fitness_ge. rewrite !Z.leb_le. lia. Qed.

Lemma descending_sort_by h (l : list ref) :
  descending h (sort_by (fitness_ge h) l).
Proof.
  unfold descending.
  eapply StronglySorted_weaken; [| apply sort_by_sorted].
  - intros a b Hab. cbv beta in Hab. unfold fitness_ge in Hab.
    now apply Z.leb_le.
  - apply fitness_ge_total.
  - apply fitness_ge_trans.
Qed.

Lemma StronglySorted_app_split {A : Type} (R : A -> A -> Prop) (l1 l2 : list A) :
  StronglySorted R (l1 ++ l2) ->
  StronglySorted R l1 /\ StronglySorted R l2
  /\ forall a b, In a l1 -> In b l2 -> R a b.
Proof.
  induction l1 as [|x l1 IH]; simpl; intros H.
  - repeat split; [constructor | assumption | intros a b []].
  - inversion H as [|? ? Hs Hall]; subst.
    destruct (IH Hs) as (H1 & H2 & H12).
    rewrite Forall_app in Hall. destruct Hall as [Hx1 Hx2].
    repeat split.
    + constructor; assumption.
    + assumption.
    + intros a b [->|Ha] Hb.
      * rewrite Forall_forall in Hx2. now apply Hx2.
      * now apply H12.
Qed.

(** ** Population *)

(** C6.  After [get_fittest] the population's members are a permutation of
    the members it held before, in an order that is non-increasing in
    fitness; nothing else changes. *)
Theorem get_fittest_sorted_permutation (self : Population) (s : State) :
  exists members,
    get_fittest self s = Ok (mkPopulation members (size self)) s
    /\ Permutation (population self) members
    /\ descending (heap s) members.
Proof.
  exists (sort_by (fitness_ge (heap s)) (population self)).
  split; [reflexivity|]. split.
  - apply Permutation_sym, sort_by_perm.
  - apply descending_sort_by.
Qed.

Lemma half_length_div2 {A} (l : list A) :
  half_length l = Z.of_nat (List.length l / 2).
Proof.
  unfold half_length. rewrite int_half_floor by lia.
  now rewrite Nat2Z.inj_div.
Qed.

(** C5.  [cull] on a population of [N] members keeps [floor(N/2)] of them:
    the kept members are in descending order of fitness, none of the
    dropped members is fitter than a kept one, kept and dropped members
    together are the members held before, and the [size] field becomes
    [floor(N/2)].  With [N] equal to 0 or 1 nothing is kept. *)
Theorem cull_keeps_fitter_half (self : Population) (s : State) :
  exists kept dropped,
    cull self s
      = Ok (mkPopulation kept (Z.of_nat (List.length (population self) / 2))) s
    /\ List.length kept = (List.length (population self) / 2)%nat
    /\ Permutation (population self) (kept ++ dropped)
    /\ descending (heap s) kept
    /\ (forall k d, In k kept -> In d dropped ->
          fitness (deref (heap s) d) <= fitness (deref (heap s) k))
    /\ ((List.length (population self) <= 1)%nat -> kept = []).
Proof.
  set (N := List.length (population self)).
  set (sorted := sort_by (fitness_ge (heap s)) (population self)).
  assert (Hlen : List.length sorted = N) by apply sort_by_length.
  exists (firstn (N / 2) sorted), (skipn (N / 2) sorted).
  assert (Hsorted : descending (heap s) (firstn (N / 2) sorted ++ skipn (N / 2) sorted))
    by (rewrite firstn_skipn; apply descending_sort_by).
  destruct (StronglySorted_app_split _ _ _ Hsorted) as (Hk & _ & Hkd).
  split; [|split; [|split; [|split; [|split]]]].
  - unfold cull, bind, get_fittest, ret. cbn [population size].
    fold sorted. rewrite half_length_div2, Hlen, Nat2Z.id. reflexivity.
  - rewrite length_firstn, Hlen. apply Nat.min_l.
    apply Nat.Div0.div_le_upper_bound. lia.
  - rewrite firstn_skipn. apply Permutation_sym, sort_by_perm.
  - exact Hk.
  - exact Hkd.
  - intros HN. replace (N / 2)%nat with 0%nat; [reflexivity|].
    destruct N as [|[|n]]; [reflexivity | reflexivity | lia].
Qed.

Lemma cull_keeps_fitter_half_witness :
  exists kept dropped,
    cull (mkPopulation [0%nat] 1) (mkState 0 [empty_chromosome])
      = Ok (mkPopulation kept 0) (mkState 0 [empty_chromosome])
    /\ kept = [] /\ dropped = [0%nat].
Proof.
  destruct (cull_keeps_fitter_half (mkPopulation [0%nat] 1)
              (mkState 0 [empty_chromosome]))
    as (kept & dropped & Hc & _ & Hp & _ & _ & Hnil).
  exists kept, dropped.
  assert (Hk : kept = []) by (apply Hnil; simpl; lia).
  subst kept. simpl in Hp.
  apply Permutation_length_1_inv in Hp. subst dropped.
  split; [exact Hc | split; reflexivity].
Defined.

(** ** Equality and membership of boxes *)

Lemma box_eqb_eq (a b : Box) : box_eqb a b = true <-> a = b.
Proof.
  unfold box_eqb. destruct (Box_eq_dec a b); split; congruence.
Qed.

Lemma box_eqb_refl (a : Box) : box_eqb a a = true.
Proof. now apply box_eqb_eq. Qed.

Lemma box_eqb_neq (a b : Box) : box_eqb a b = false <-> a <> b.
Proof.
  unfold box_eqb. destruct (Box_eq_dec a b); split; congruence.
Qed.

Lemma list_eqb_eq (l1 l2 : list Box) : list_eqb l1 l2 = true <-> l1 = l2.
Proof.
  revert l2; induction l1 as [|a l1 IH]; intros [|b l2]; simpl;
    try (split; congruence).
  rewrite andb_true_iff, box_eqb_eq, IH. split.
  - intros [-> ->]; reflexivity.
  - intros H; inversion H; auto.
Qed.

Lemma contains_In (b : Box) (l : list Box) : contains b l = true <-> In b l.
Proof.
  induction l as [|a l IH]; simpl.
  - split; [discriminate | tauto].
  - destruct (box_eqb a b) eqn:E.
    + apply box_eqb_eq in E. tauto.
    + apply box_eqb_neq in E. rewrite IH. tauto.
Qed.

Lemma contains_not_In (b : Box) (l : list Box) :
  contains b l = false <-> ~ In b l.
Proof.
  rewrite <- contains_In. destruct (contains b l); split; congruence.
Qed.

(** ** dupe_check *)

Lemma sorted_by_name_sorted (l : list Box) :
  StronglySorted (fun a b => name_le a b = true) (sorted_by_name l).
Proof.
  apply sort_by_sorted; [apply name_le_total | apply name_le_trans].
Qed.

Lemma sorted_by_name_perm (l : list Box) : Permutation (sorted_by_name l) l.
Proof. apply sort_by_perm. Qed.

Lemma sorted_by_name_unique (l1 l2 : list Box) :
  distinct_names l1 -> Permutation l1 l2 ->
  sorted_by_name l1 = sorted_by_name l2.
Proof.
  intros Hn Hp.
  apply (sorted_perm_unique (fun a b => name_le a b = true)).
  - intros a b Ha Hb Hab Hba. apply Hn.
    + eapply Permutation_in; [apply sorted_by_name_perm | exact Ha].
    + eapply Permutation_in; [apply sorted_by_name_perm | exact Hb].
    + now apply String.leb_antisym.
  - apply sorted_by_name_sorted.
  - apply sorted_by_name_sorted.
  - eapply perm_trans; [apply sorted_by_name_perm|].
    eapply perm_trans; [exact Hp | apply Permutation_sym, sorted_by_name_perm].
Qed.

Lemma dupe_check_true (x y : Chromosome) :
  dupe_check x y = true
  <-> sorted_by_name (boxes x) = sorted_by_name (boxes y).
Proof.
  unfold dupe_check. cbv zeta.
  destruct (list_eqb _ _) eqn:E.
  - apply list_eqb_eq in E. tauto.
  - split; [discriminate|]. intros H. apply list_eqb_eq in H. congruence.
Qed.

(** C7.  Over items that are told apart by their names (the item names of
    the data model are unique), [dupe_check x y] is true exactly when [x]
    and [y] hold the same multiset of items, and exactly when their
    name-sorted gene sequences are equal. *)
Theorem dupe_check_iff_same_items (x y : Chromosome) :
  distinct_names (boxes x ++ boxes y) ->
  (dupe_check x y = true <-> Permutation (boxes x) (boxes y))
  /\ (dupe_check x y = true
      <-> sorted_by_name (boxes x) = sorted_by_name (boxes y)).
Proof.
  intros Hn. split; [|apply dupe_check_true].
  rewrite dupe_check_true. split.
  - intros H.
    eapply perm_trans; [apply Permutation_sym, sorted_by_name_perm|].
    rewrite H. apply sorted_by_name_perm.
  - apply sorted_by_name_unique.
    intros a b Ha Hb. apply Hn; apply in_or_app; now left.
Qed.

Lemma dupe_check_iff_same_items_witness :
  let a := mkBox 0 "a" 20 6 in
  let b := mkBox 1 "b" 30 5 in
  let c := mkBox 2 "c" 60 8 in
  dupe_check (mkChromosome [c; a; b] 0 0 0) (mkChromosome [b; c; a] 0 0 0) = true
  <-> Permutation [c; a; b] [b; c; a].
Proof.
  refine (proj1 (dupe_check_iff_same_items
            (mkChromosome [mkBox 2 "c" 60 8; mkBox 0 "a" 20 6; mkBox 1 "b" 30 5] 0 0 0)
            (mkChromosome [mkBox 1 "b" 30 5; mkBox 2 "c" 60 8; mkBox 0 "a" 20 6] 0 0 0)
            _)).
  intros p q Hp Hq Hpq. simpl in Hp, Hq.
  repeat (destruct Hp as [<-|Hp]; [|]);
    repeat (destruct Hq as [<-|Hq]; [|]);
    try reflexivity; try discriminate Hpq; try contradiction.
Defined.

(** Without the names telling the items apart the sort is no canonical
    form: two objects of one name, in opposite orders. *)
Lemma dupe_check_same_name_order :
  let p := mkBox 0 "a" 20 6 in
  let q := mkBox 1 "a" 20 6 in
  dupe_check (mkChromosome [p; q] 0 0 0) (mkChromosome [q; p] 0 0 0) = false
  /\ Permutation [p; q] [q; p].
Proof. split; [reflexivity | apply perm_swap]. Qed.

(** ** Chromosome construction *)

(** C10.  On a catalog of one or two boxes [gen_chromosome] reads
    [box_list[i]] for an [i] past the end: the [IndexError] is raised,
    whatever the draws of the shuffle. *)
Theorem gen_chromosome_short_catalog_raises
        (tape : nat -> nat) (box_list : list Box) (s : State) :
  (0 < List.length box_list < 3)%nat ->
  gen_chromosome tape box_list s = Raise IndexError.
Proof.
  intros Hlen.
  destruct box_list as [|a [|b [|c l]]]; simpl in Hlen; try lia.
  - reflexivity.
  - unfold gen_chromosome, shuffle, bind. simpl.
    unfold randbelow, draw, bind, ret. simpl.
    destruct (Nat.divmod (tape (cursor s)) 1 0 1) as [q [|[|r]]]; reflexivity.
Qed.

Lemma gen_chromosome_short_catalog_raises_witness :
  gen_chromosome (fun n => n) [mkBox 0 "a" 20 6] initial_state = Raise IndexError.
Proof.
  apply gen_chromosome_short_catalog_raises. simpl. lia.
Defined.

(** The sibling path: the empty catalog is guarded. *)
Lemma gen_chromosome_empty_catalog (tape : nat -> nat) (s : State) :
  gen_chromosome tape [] s = Ok ([], []) s.
Proof. reflexivity. Qed.

(** ** Lists updated in place *)

Lemma list_set_length {A} (i : nat) (v : A) (l : list A) :
  List.length (list_set i v l) = List.length l.
Proof.
  revert i; induction l as [|a l IH]; intros [|i]; simpl; auto.
Qed.

Lemma nth_error_list_set_eq {A} (i : nat) (v : A) (l : list A) :
  (i < List.length l)%nat -> nth_error (list_set i v l) i = Some v.
Proof.
  revert i; induction l as [|a l IH]; intros [|i] H; simpl in *; try lia.
  - reflexivity.
  - apply IH. lia.
Qed.

Lemma nth_error_list_set_neq {A} (i j : nat) (v : A) (l : list A) :
  i <> j -> nth_error (list_set i v l) j = nth_error l j.
Proof.
  revert i j; induction l as [|a l IH]; intros [|i] [|j] H; simpl; auto.
  - congruence.
Qed.

Lemma nth_list_set_eq {A} (i : nat) (v d : A) (l : list A) :
  (i < List.length l)%nat -> nth i (list_set i v l) d = v.
Proof.
  intros H. apply nth_error_nth. now apply nth_error_list_set_eq.
Qed.

Lemma nth_list_set_neq {A} (i j : nat) (v d : A) (l : list A) :
  i <> j -> nth j (list_set i v l) d = nth j l d.
Proof.
  revert i j; induction l as [|a l IH]; intros [|i] [|j] H; simpl; auto.
  - congruence.
Qed.

Lemma In_list_set {A} (i : nat) (v x : A) (l : list A) :
  In x (list_set i v l) -> x = v \/ In x l.
Proof.
  revert i; induction l as [|a l IH]; intros [|i]; simpl; try tauto.
  - intros [->|H]; auto.
  - intros [->|H]; auto. destruct (IH _ H); auto.
Qed.

Lemma NoDup_list_set {A} (i : nat) (v : A) (l : list A) :
  NoDup l -> ~ In v l -> NoDup (list_set i v l).
Proof.
  revert i; induction l as [|a l IH]; intros [|i] Hnd Hv; simpl.
  - constructor.
  - constructor.
  - inversion Hnd; subst. constructor; [|assumption].
    intros H. apply Hv. now right.
  - inversion Hnd as [|? ? Ha Hl]; subst. constructor.
    + intros H. apply In_list_set in H. destruct H as [->|H].
      * apply Hv. now left.
      * contradiction.
    + apply IH; [assumption|]. intros H. apply Hv. now right.
Qed.

Lemma getitem_ok {A} (l : list A) (i : nat) (v : A) (s : State) :
  nth_error l i = Some v -> getitem l i s = Ok v s.
Proof. unfold getitem. now intros ->. Qed.

Lemma setitem_ok {A} (l : list A) (i : nat) (v : A) (s : State) :
  (i < List.length l)%nat -> setitem l i v s = Ok (list_set i v l) s.
Proof.
  unfold setitem. intros H. apply Nat.ltb_lt in H. now rewrite H.
Qed.

(** ** [list.remove] *)

Lemma remove_first_filter (b : Box) (l : list Box) :
  NoDup l -> In b l ->
  remove_first b l = Some (filter (fun a => negb (box_eqb a b)) l).
Proof.
  induction l as [|a l IH]; intros Hnd Hin; [destruct Hin|].
  inversion Hnd as [|? ? Ha Hl]; subst. simpl.
  destruct (box_eqb a b) eqn:E; simpl.
  - apply box_eqb_eq in E. subst a. f_equal.
    symmetry. apply forallb_filter_id. apply forallb_forall.
    intros x Hx. apply negb_true_iff, box_eqb_neq. congruence.
  - apply box_eqb_neq in E. destruct Hin as [?|Hin]; [congruence|].
    now rewrite IH.
Qed.

Lemma filter_absent (b : Box) (l : list Box) :
  ~ In b l -> filter (fun a => negb (box_eqb a b)) l = l.
Proof.
  intros H. apply forallb_filter_id, forallb_forall.
  intros x Hx. apply negb_true_iff, box_eqb_neq. congruence.
Qed.

Lemma NoDup_filter_box (f : Box -> bool) (l : list Box) :
  NoDup l -> NoDup (filter f l).
Proof. apply NoDup_filter. Qed.

Lemma filter_filter_box (f g : Box -> bool) (l : list Box) :
  filter f (filter g l) = filter (fun a => g a && f a) l.
Proof.
  induction l as [|a l IH]; simpl; [reflexivity|].
  destruct (g a); simpl; [destruct (f a)|]; now rewrite IH.
Qed.

Lemma filter_remove_length (b : Box) (l : list Box) :
  NoDup l -> In b l ->
  S (List.length (filter (fun a => negb (box_eqb a b)) l)) = List.length l.
Proof.
  induction l as [|a l IH]; intros Hnd Hin; [destruct Hin|].
  inversion Hnd as [|? ? Ha Hl]; subst. simpl.
  destruct (box_eqb a b) eqn:E; simpl.
  - apply box_eqb_eq in E. subst a. now rewrite filter_absent.
  - apply box_eqb_neq in E. destruct Hin as [?|Hin]; [congruence|].
    now rewrite IH.
Qed.

Lemma list_remove_ok (b : Box) (l : list Box) (s : State) :
  NoDup l -> In b l ->
  list_remove b l s = Ok (filter (fun a => negb (box_eqb a b)) l) s.
Proof.
  intros Hnd Hin. unfold list_remove. now rewrite remove_first_filter.
Qed.

(** ** The monads *)

Lemma bind_Ok {A B} (m : M A) (k : A -> M B) (s s' : State) (a : A) :
  m s = Ok a s' -> bind m k s = k a s'.
Proof. unfold bind. now intros ->. Qed.

Lemma bind_Raise {A B} (m : M A) (k : A -> M B) (s : State) (e : exn) :
  m s = Raise e -> bind m k s = Raise e.
Proof. unfold bind. now intros ->. Qed.

(** ** Mutation *)

Section MutationFacts.
Variable tape : nat -> nat.

Lemma randint_ok (a b : Z) (s : State) :
  a <= b ->
  randint tape a b s
  = Ok (a + Z.of_nat (tape (cursor s) mod Z.to_nat (b - a + 1)))
       (mkState (S (cursor s)) (heap s)).
Proof.
  intros H. unfold randint.
  destruct (Z.ltb_spec b a); [lia|]. reflexivity.
Qed.

Lemma mutant_prob_ok (probability : Q) (s : State) :
  mutant_prob tape probability s
  = Ok (Qle_bool (inject_Z (Z.of_nat (tape (cursor s) mod 11))) (probability * 10))
       (mkState (S (cursor s)) (heap s)).
Proof.
  unfold mutant_prob. cbv zeta.
  rewrite (bind_Ok _ _ _ _ _ (randint_ok 0 10 s ltac:(lia))).
  change (Z.to_nat (10 - 0 + 1)) with 11%nat.
  change (0 + Z.of_nat (tape (cursor s) mod 11))
    with (Z.of_nat (tape (cursor s) mod 11)).
  now destruct (Qle_bool _ _).
Qed.

Lemma choice_ok {A} (l : list A) (d : A) (s : State) :
  l <> [] ->
  choice tape l s
  = Ok (nth (tape (cursor s) mod List.length l) l d)
       (mkState (S (cursor s)) (heap s))
  /\ In (nth (tape (cursor s) mod List.length l) l d) l.
Proof.
  intros Hl. destruct l as [|a l]; [congruence|].
  split.
  - unfold choice, randbelow, draw, bind, ret. cbn [cursor heap].
    f_equal. apply nth_indep. apply Nat.mod_upper_bound. discriminate.
  - apply nth_In. apply Nat.mod_upper_bound. discriminate.
Qed.

Lemma remove_present_available (genes l : list Box) (s : State) :
  NoDup l -> remove_present genes l s = Ok (available genes l) s.
Proof.
  revert l; induction genes as [|i genes IH]; intros l Hnd; simpl.
  - unfold available. simpl. unfold ret. f_equal.
    symmetry. apply forallb_filter_id, forallb_forall. reflexivity.
  - destruct (contains i l) eqn:Hc.
    + apply contains_In in Hc.
      rewrite (bind_Ok _ _ _ _ _ (list_remove_ok i l s Hnd Hc)).
      rewrite IH by now apply NoDup_filter.
      unfold available. rewrite filter_filter_box. f_equal.
      apply filter_ext. intros a. simpl.
      destruct (box_eqb a i) eqn:E1; destruct (box_eqb i a) eqn:E2;
        try reflexivity.
      * apply box_eqb_eq in E1. apply box_eqb_neq in E2. congruence.
      * apply box_eqb_eq in E2. apply box_eqb_neq in E1. congruence.
    + apply contains_not_In in Hc. rewrite IH by assumption.
      unfold available. f_equal. apply filter_ext_in.
      intros a Ha. simpl. destruct (box_eqb i a) eqn:E; [|reflexivity].
      apply box_eqb_eq in E. congruence.
Qed.

Lemma available_In (genes l : list Box) (b : Box) :
  In b (available genes l) <-> In b l /\ ~ In b genes.
Proof.
  unfold available. rewrite filter_In, negb_true_iff, contains_not_In.
  tauto.
Qed.

(** One pass over the positions [j .. j+n-1]: each gene stays or is
    replaced by a box of the pool, the replacements are pairwise distinct
    and the heap is not touched. *)
Lemma mutate_loop_spec (probability : Q) :
  forall (n j : nat) (genes pool : list Box) (s : State),
    (j + n = List.length genes)%nat -> (n <= List.length pool)%nat ->
    NoDup pool -> NoDup genes -> (forall b, In b pool -> ~ In b genes) ->
    exists genes' s',
      mutate_loop tape probability (seq j n) genes pool s = Ok genes' s'
      /\ heap s' = heap s
      /\ List.length genes' = List.length genes
      /\ NoDup genes'
      /\ forall i, nth_error genes' i = nth_error genes i
                   \/ exists b, nth_error genes' i = Some b /\ In b pool.
Proof.
  induction n as [|n IH]; intros j genes pool s Hj Hn Hp Hg Hd.
  - exists genes, s. simpl. repeat split; auto.
  - cbn [seq mutate_loop].
    rewrite (bind_Ok _ _ _ _ _ (mutant_prob_ok probability s)).
    set (s1 := mkState (S (cursor s)) (heap s)).
    destruct (Qle_bool _ _).
    + assert (Hne : pool <> []) by (destruct pool; [simpl in Hn; lia | discriminate]).
      destruct pool as [|d0 pool0] eqn:Epool; [congruence|].
      rewrite <- Epool in *.
      destruct (choice_ok pool d0 s1 Hne) as [Hch Hin].
      set (b := nth (tape (cursor s1) mod List.length pool) pool d0) in *.
      rewrite (bind_Ok _ _ _ _ _ Hch).
      set (s2 := mkState (S (cursor s1)) (heap s1)).
      rewrite (bind_Ok _ _ _ _ _ (setitem_ok genes j b s2 ltac:(lia))).
      rewrite (bind_Ok _ _ _ _ _
                 (getitem_ok _ j b s2 (nth_error_list_set_eq j b genes ltac:(lia)))).
      rewrite (bind_Ok _ _ _ _ _ (list_remove_ok b pool s2 Hp Hin)).
      set (pool1 := filter (fun a => negb (box_eqb a b)) pool).
      assert (Hin1 : forall x, In x pool1 -> In x pool /\ x <> b).
      { intros x Hx. apply filter_In in Hx. destruct Hx as [Hx Hxb].
        apply negb_true_iff, box_eqb_neq in Hxb. auto. }
      destruct (IH (S j) (list_set j b genes) pool1 s2) as (g' & s' & Hrun & Hh & Hl & Hnd & Hpos).
      * rewrite list_set_length. lia.
      * pose proof (filter_remove_length b pool Hp Hin). fold pool1 in H. lia.
      * now apply NoDup_filter.
      * apply NoDup_list_set; [assumption | now apply Hd].
      * intros x Hx Hx'. destruct (Hin1 x Hx) as [Hxp Hxb].
        apply In_list_set in Hx'. destruct Hx' as [?|Hx']; [congruence|].
        exact (Hd x Hxp Hx').
      * exists g', s'. split; [exact Hrun|].
        split; [rewrite Hh; reflexivity|].
        split; [rewrite Hl; apply list_set_length|].
        split; [exact Hnd|].
        intros i. destruct (Hpos i) as [Hi|(b' & Hi & Hb')].
        -- destruct (Nat.eq_dec j i) as [<-|Hji].
           ++ right. exists b. split; [|exact Hin].
              rewrite Hi. apply nth_error_list_set_eq. lia.
           ++ left. rewrite Hi. now apply nth_error_list_set_neq.
        -- right. exists b'. split; [exact Hi|]. now apply Hin1.
    + destruct (IH (S j) genes pool s1) as (g' & s' & Hrun & Hh & Hl & Hnd & Hpos);
        try assumption; try lia.
      exists g', s'. repeat split; auto.
Qed.
End MutationFacts.

Lemma deref_list_set_eq (h : list Chromosome) (r : ref) (c : Chromosome) :
  (r < List.length h)%nat -> deref (list_set r c h) r = c.
Proof. intros H. unfold deref. now apply nth_list_set_eq. Qed.

Lemma deref_list_set_neq (h : list Chromosome) (r r' : ref) (c : Chromosome) :
  r <> r' -> deref (list_set r c h) r' = deref h r'.
Proof. intros H. unfold deref. now apply nth_list_set_neq. Qed.

Ltac nodup_boxes :=
  repeat (constructor;
          [ simpl; let H := fresh in
            intros H; repeat (destruct H as [H|H]; [discriminate H|]); exact H
          | ]);
  try constructor.

(** C9.  [mutate] on a live chromosome with pairwise-distinct genes, over a
    catalog of pairwise-distinct boxes with at least as many boxes outside
    the chromosome as it has genes, returns that chromosome with
    pairwise-distinct genes, whatever the draws: each gene is the one that
    was there or a catalog box that was not in the chromosome. *)
Theorem mutate_keeps_genes_distinct
        (tape : nat -> nat) (baby : ref) (probability : Q)
        (box_list : list Box) (s : State) :
  (baby < List.length (heap s))%nat ->
  NoDup (boxes (deref (heap s) baby)) ->
  NoDup box_list ->
  (List.length (boxes (deref (heap s) baby))
   <= List.length (available (boxes (deref (heap s) baby)) box_list))%nat ->
  exists s',
    mutate tape baby probability box_list s = Ok baby s'
    /\ NoDup (boxes (deref (heap s') baby))
    /\ List.length (boxes (deref (heap s') baby))
       = List.length (boxes (deref (heap s) baby))
    /\ forall i,
         nth_error (boxes (deref (heap s') baby)) i
         = nth_error (boxes (deref (heap s) baby)) i
         \/ exists b, nth_error (boxes (deref (heap s') baby)) i = Some b
                      /\ In b box_list
                      /\ ~ In b (boxes (deref (heap s) baby)).
Proof.
  intros Hlive Hg Hc Hpool.
  set (self := deref (heap s) baby) in *.
  destruct (mutate_loop_spec tape probability (List.length (boxes self)) 0
              (boxes self) (available (boxes self) box_list) s)
    as (g' & s1 & Hrun & Hh & Hl & Hnd & Hpos); auto.
  - now apply NoDup_filter.
  - intros b Hb. now apply available_In in Hb.
  - exists (mkState (cursor s1) (list_set baby (set_boxes self g') (heap s1))).
    assert (Hd : deref (list_set baby (set_boxes self g') (heap s1)) baby
                 = set_boxes self g')
      by (apply deref_list_set_eq; now rewrite Hh).
    split.
    + unfold mutate.
      rewrite (bind_Ok _ _ s s self) by reflexivity. fold self.
      rewrite (bind_Ok _ _ _ _ _ (remove_present_available _ _ s Hc)).
      rewrite (bind_Ok _ _ _ _ _ Hrun).
      reflexivity.
    + cbn [heap]. rewrite Hd. cbn [set_boxes boxes].
      split; [exact Hnd|]. split; [exact Hl|].
      intros i. destruct (Hpos i) as [Hi|(b & Hi & Hb)]; [now left|].
      right. exists b. apply available_In in Hb. tauto.
Qed.

Lemma mutate_keeps_genes_distinct_witness :
  exists s',
    mutate (fun n => n) 0%nat MUTANT_PROB the_boxes
           (mkState 0 [mkChromosome [mkBox 0 "a" 20 6; mkBox 1 "b" 30 5; mkBox 2 "c" 60 8]
                                    110 19 19])
    = Ok 0%nat s'
    /\ NoDup (boxes (deref (heap s') 0%nat)).
Proof.
  destruct (mutate_keeps_genes_distinct (fun n => n) 0%nat MUTANT_PROB the_boxes
              (mkState 0 [mkChromosome [mkBox 0 "a" 20 6; mkBox 1 "b" 30 5; mkBox 2 "c" 60 8]
                                       110 19 19]))
    as (s' & Hrun & Hnd & _).
  - simpl. lia.
  - simpl. nodup_boxes.
  - unfold the_boxes. nodup_boxes.
  - simpl. lia.
  - exists s'. split; assumption.
Defined.

Lemma remove_first_In (b : Box) (l : list Box) :
  In b l ->
  exists l', remove_first b l = Some l'
             /\ List.length l = S (List.length l')
             /\ incl l' l.
Proof.
  induction l as [|a l IH]; intros Hin; [destruct Hin|]. simpl.
  destruct (box_eqb a b) eqn:E.
  - exists l. repeat split. now apply incl_tl, incl_refl.
  - apply box_eqb_neq in E. destruct Hin as [?|Hin]; [congruence|].
    destruct (IH Hin) as (l' & -> & Hlen & Hincl).
    exists (a :: l'). simpl. repeat split.
    + now rewrite Hlen.
    + intros x [->|Hx]; [now left | right; now apply Hincl].
Qed.

Section MutationDecisions.
Variable tape : nat -> nat.
Variable probability : Q.

(** The decision of [mutant_prob] on the draw [d]. *)
Let decides (d : nat) : bool :=
  Qle_bool (inject_Z (Z.of_nat (d mod 11))) (probability * 10).

Lemma mutate_loop_decisions :
  forall (n j : nat) (genes pool : list Box) (s : State),
    (j + n = List.length genes)%nat -> (n <= List.length pool)%nat ->
    exists genes' s',
      mutate_loop tape probability (seq j n) genes pool s = Ok genes' s'
      /\ heap s' = heap s
      /\ (forall i, (i < j)%nat -> nth_error genes' i = nth_error genes i)
      /\ ((forall d, decides d = true) ->
          forall i, (j <= i < j + n)%nat ->
                    exists b, nth_error genes' i = Some b /\ In b pool)
      /\ ((forall c, (cursor s <= c)%nat -> decides (tape c) = false) ->
          genes' = genes).
Proof.
  induction n as [|n IH]; intros j genes pool s Hj Hn.
  - exists genes, s. simpl. repeat split; auto. intros _ i Hi. lia.
  - cbn [seq mutate_loop].
    rewrite (bind_Ok _ _ _ _ _ (mutant_prob_ok tape probability s)).
    fold (decides (tape (cursor s))).
    set (s1 := mkState (S (cursor s)) (heap s)).
    destruct (decides (tape (cursor s))) eqn:Hdec.
    + destruct pool as [|d0 pool0] eqn:Epool; [simpl in Hn; lia|].
      rewrite <- Epool in *.
      assert (Hne : pool <> []) by (rewrite Epool; discriminate).
      destruct (choice_ok tape pool d0 s1 Hne) as [Hch Hin].
      set (b := nth (tape (cursor s1) mod List.length pool) pool d0) in *.
      rewrite (bind_Ok _ _ _ _ _ Hch).
      set (s2 := mkState (S (cursor s1)) (heap s1)).
      rewrite (bind_Ok _ _ _ _ _ (setitem_ok genes j b s2 ltac:(lia))).
      rewrite (bind_Ok _ _ _ _ _
                 (getitem_ok _ j b s2 (nth_error_list_set_eq j b genes ltac:(lia)))).
      destruct (remove_first_In b pool Hin) as (pool1 & Hrm & Hlen & Hincl).
      assert (Hlr : list_remove b pool s2 = Ok pool1 s2)
        by (unfold list_remove; now rewrite Hrm).
      rewrite (bind_Ok _ _ _ _ _ Hlr).
      destruct (IH (S j) (list_set j b genes) pool1 s2)
        as (g' & s' & Hrun & Hh & Hbefore & Hall & _).
      * rewrite list_set_length. lia.
      * lia.
      * exists g', s'. split; [exact Hrun|]. split; [exact Hh|]. split; [|split].
        -- intros i Hi. rewrite Hbefore by lia.
           apply nth_error_list_set_neq. lia.
        -- intros Htrue i Hi. destruct (Nat.eq_dec i j) as [->|Hij].
           ++ exists b. split; [|exact Hin].
              rewrite Hbefore by lia. apply nth_error_list_set_eq. lia.
           ++ destruct (Hall Htrue i ltac:(lia)) as (b' & Hb' & Hin').
              exists b'. split; [exact Hb' | now apply Hincl].
        -- intros Hfalse. rewrite Hfalse in Hdec by lia. discriminate.
    + destruct (IH (S j) genes pool s1 ltac:(lia) ltac:(lia))
        as (g' & s' & Hrun & Hh & Hbefore & Hall & Hnone).
      exists g', s'. split; [exact Hrun|]. split; [exact Hh|]. split; [|split].
      * intros i Hi. apply Hbefore. lia.
      * intros Htrue. rewrite Htrue in Hdec. discriminate.
      * intros Hfalse. apply Hnone. intros c Hc. apply Hfalse.
        simpl in Hc. lia.
Qed.
End MutationDecisions.

(** With probability 1 every draw decides for a mutation... *)
Lemma mutant_prob_one_decides (d : nat) :
  Qle_bool (inject_Z (Z.of_nat (d mod 11))) (1 * 10) = true.
Proof.
  pose proof (Nat.mod_upper_bound d 11 ltac:(discriminate)) as H.
  revert H. generalize (d mod 11)%nat. intros n H.
  apply Qle_bool_iff. unfold Qle. simpl. lia.
Qed.

(** ... and with probability 0 the draw 0 still does: of the eleven
    outcomes of [randint(0, 10)], [temp <= 0] holds for one. *)
Lemma mutant_prob_zero_decides (d : nat) :
  Qle_bool (inject_Z (Z.of_nat (d mod 11))) (0 * 10) = true
  <-> (d mod 11 = 0)%nat.
Proof.
  generalize (d mod 11)%nat. intros n.
  rewrite Qle_bool_iff. unfold Qle. simpl. lia.
Qed.

Section MutateAtTheExtremes.
Variable tape : nat -> nat.
Variables (baby : ref) (box_list : list Box) (s : State).
Hypothesis live : (baby < List.length (heap s))%nat.
Hypothesis catalog_distinct : NoDup box_list.
Hypothesis pool_large :
  (List.length (boxes (deref (heap s) baby))
   <= List.length (available (boxes (deref (heap s) baby)) box_list))%nat.

Let self := deref (heap s) baby.

Lemma mutate_unfold (probability : Q) (genes' : list Box) (s1 : State) :
  mutate_loop tape probability (seq 0 (List.length (boxes self)))
              (boxes self) (available (boxes self) box_list) s = Ok genes' s1 ->
  heap s1 = heap s ->
  mutate tape baby probability box_list s
  = Ok baby (mkState (cursor s1) (list_set baby (set_boxes self genes') (heap s1)))
  /\ boxes (deref (list_set baby (set_boxes self genes') (heap s1)) baby) = genes'.
Proof.
  intros Hrun Hh. split.
  - unfold mutate.
    rewrite (bind_Ok _ _ s s self) by reflexivity.
    rewrite (bind_Ok _ _ _ _ _ (remove_present_available _ _ s catalog_distinct)).
    rewrite (bind_Ok _ _ _ _ _ Hrun).
    reflexivity.
  - rewrite deref_list_set_eq by (now rewrite Hh). reflexivity.
Qed.

(** With probability 1 every gene is replaced by a catalog box that was
    not in the chromosome. *)
Lemma mutate_probability_one_replaces_every_gene :
  exists s',
    mutate tape baby 1 box_list s = Ok baby s'
    /\ forall i, (i < List.length (boxes self))%nat ->
         exists b, nth_error (boxes (deref (heap s') baby)) i = Some b
                   /\ In b box_list /\ ~ In b (boxes self).
Proof.
  destruct (mutate_loop_decisions tape 1 (List.length (boxes self)) 0
              (boxes self) (available (boxes self) box_list) s eq_refl pool_large)
    as (g' & s1 & Hrun & Hh & _ & Hall & _).
  destruct (mutate_unfold 1 g' s1 Hrun Hh) as [Hm Hb].
  eexists. split; [exact Hm|]. cbn [heap]. rewrite Hb.
  intros i Hi.
  destruct (Hall mutant_prob_one_decides i ltac:(lia)) as (b & Hnth & Hin).
  exists b. apply available_In in Hin. tauto.
Qed.

(** With probability 0 the genes stay as they are when no draw of the
    pass is 0 modulo 11. *)
Lemma mutate_probability_zero_without_zero_draw :
  (forall c, (cursor s <= c)%nat -> (tape c mod 11 <> 0)%nat) ->
  exists s',
    mutate tape baby 0 box_list s = Ok baby s'
    /\ boxes (deref (heap s') baby) = boxes self.
Proof.
  intros Hdraws.
  destruct (mutate_loop_decisions tape 0 (List.length (boxes self)) 0
              (boxes self) (available (boxes self) box_list) s eq_refl pool_large)
    as (g' & s1 & Hrun & Hh & _ & _ & Hnone).
  destruct (mutate_unfold 0 g' s1 Hrun Hh) as [Hm Hb].
  eexists. split; [exact Hm|]. cbn [heap]. rewrite Hb.
  apply Hnone. intros c Hc.
  destruct (Qle_bool _ _) eqn:E; [|reflexivity].
  apply mutant_prob_zero_decides in E. now apply Hdraws in Hc.
Qed.
End MutateAtTheExtremes.

(** C2.  [mutate] called with probability 0 on the chromosome (a, b, f) and
    the catalog of the driver, with every draw equal to 0: [randint(0, 10)]
    returns 0, [0 <= 0 * 10] holds, and all three genes are replaced. *)
Theorem mutate_probability_zero_replaces_genes :
  let a := mkBox 0 "a" 20 6 in
  let b := mkBox 1 "b" 30 5 in
  let f := mkBox 5 "f" 70 9 in
  let s := mkState 0 [mkChromosome [a; b; f] 120 20 22] in
  exists s',
    mutate (fun _ => 0%nat) 0%nat 0 the_boxes s = Ok 0%nat s'
    /\ boxes (deref (heap s) 0%nat) = [a; b; f]
    /\ boxes (deref (heap s') 0%nat)
       = [mkBox 2 "c" 60 8; mkBox 3 "d" 90 7; mkBox 4 "e" 50 6].
Proof.
  eexists. split; [vm_compute; reflexivity|]. split; reflexivity.
Qed.

(** ** Crossover *)

Lemma name_lt_irrefl (a : Box) : ~ name_lt a a.
Proof.
  unfold name_lt. intros H.
  pose proof (String.compare_antisym (name a) (name a)) as Ha.
  rewrite H in Ha. discriminate.
Qed.

Lemma name_lt_asym (a b : Box) : name_lt a b -> ~ name_lt b a.
Proof.
  unfold name_lt. intros H H'.
  rewrite String.compare_antisym, H' in H. discriminate.
Qed.

Lemma name_le_lt (a b : Box) :
  name_le a b = true -> name a <> name b -> name_lt a b.
Proof.
  unfold name_le, String.leb, name_lt. intros Hle Hne.
  destruct (String.compare (name a) (name b)) eqn:E.
  - apply String.compare_eq_iff in E. contradiction.
  - reflexivity.
  - discriminate.
Qed.

(** The name-sorted genes of a duplicate-free chromosome over distinctly
    named items are strictly increasing. *)
Lemma sorted_by_name_strict (l : list Box) :
  NoDup l -> distinct_names l -> StronglySorted name_lt (sorted_by_name l).
Proof.
  intros Hnd Hn.
  assert (Hnd' : NoDup (sorted_by_name l))
    by (eapply Permutation_NoDup; [apply Permutation_sym, sorted_by_name_perm | exact Hnd]).
  assert (Hin : forall a, In a (sorted_by_name l) -> In a l)
    by (intros a; apply Permutation_in, sorted_by_name_perm).
  pose proof (sorted_by_name_sorted l) as Hs.
  induction Hs as [|a l' Hs IH Hall]; [constructor|].
  inversion Hnd' as [|? ? Ha Hl']; subst.
  constructor.
  - apply IH; [assumption|]. intros b Hb. apply Hin. now right.
  - rewrite Forall_forall in *. intros b Hb.
    apply name_le_lt; [now apply Hall|].
    intros Hab. apply Ha.
    rewrite (Hn a b); [exact Hb | apply Hin; now left | apply Hin; now right | exact Hab].
Qed.

Lemma skipn_nth_error {A} (l : list A) (i : nat) (a : A) :
  nth_error l i = Some a -> skipn i l = a :: skipn (S i) l.
Proof.
  revert i; induction l as [|b l IH]; intros [|i] H; simpl in *; try discriminate.
  - now inversion H.
  - now apply IH.
Qed.

Lemma StronglySorted_skipn {A} (R : A -> A -> Prop) (l : list A) (i : nat) :
  StronglySorted R l -> StronglySorted R (skipn i l).
Proof.
  intros H. rewrite <- (firstn_skipn i l) in H.
  now apply StronglySorted_app_split in H.
Qed.

Lemma nth_error_lt_Some {A} (l : list A) (i : nat) :
  (i < List.length l)%nat -> exists a, nth_error l i = Some a.
Proof.
  intros H. destruct (nth_error l i) eqn:E; [eauto|].
  apply nth_error_None in E. lia.
Qed.

Section CrossoverFacts.
Variable tape : nat -> nat.
Variables temp1 temp2 : list Box.
Hypothesis sorted1 : StronglySorted name_lt temp1.
Hypothesis sorted2 : StronglySorted name_lt temp2.
Hypothesis same_length : List.length temp2 = List.length temp1.

(** The genes placed so far come from the two prefixes already walked;
    each of them is therefore strictly below the rest of [temp1] or below
    the rest of [temp2].  A box met at position [i] of one parent and
    found in the child is then below the box at position [i] of the other:
    the two boxes of a position cannot both be in the child, and the
    fall-back is never a duplicate. *)
Lemma crossover_loop_spec :
  forall (n i : nat) (acc : list Box) (s : State),
    (i + n = List.length temp1)%nat ->
    NoDup acc ->
    (forall b, In b acc ->
               below_all b (skipn i temp1) \/ below_all b (skipn i temp2)) ->
    exists genes s',
      crossover_loop tape (seq i n) temp1 temp2 acc s = Ok genes s'
      /\ heap s' = heap s
      /\ NoDup genes
      /\ List.length genes = (List.length acc + n)%nat
      /\ forall b, In b genes -> In b acc \/ In b temp1 \/ In b temp2.
Proof.
  induction n as [|n IH]; intros i acc s Hi Hnd Hinv.
  - exists acc, s. simpl. repeat split; auto.
  - destruct (nth_error_lt_Some temp1 i ltac:(lia)) as [a1 H1].
    destruct (nth_error_lt_Some temp2 i ltac:(lia)) as [a2 H2].
    pose proof (skipn_nth_error _ _ _ H1) as E1.
    pose proof (skipn_nth_error _ _ _ H2) as E2.
    pose proof (StronglySorted_skipn _ _ i sorted1) as S1.
    pose proof (StronglySorted_skipn _ _ i sorted2) as S2.
    rewrite E1 in S1. rewrite E2 in S2.
    apply StronglySorted_inv in S1, S2.
    destruct S1 as [_ B1]. destruct S2 as [_ B2].
    rewrite E1, E2 in Hinv.
    assert (F1 : In a1 acc -> name_lt a1 a2).
    { intros Hin. destruct (Hinv _ Hin) as [H|H]; inversion H; subst; auto.
      exfalso. eapply name_lt_irrefl; eauto. }
    assert (F2 : In a2 acc -> name_lt a2 a1).
    { intros Hin. destruct (Hinv _ Hin) as [H|H]; inversion H; subst; auto.
      exfalso. eapply name_lt_irrefl; eauto. }
    set (s1 := mkState (S (cursor s)) (heap s)).
    assert (Hstep : forall g, g = a1 \/ g = a2 -> ~ In g acc ->
              exists genes s',
                crossover_loop tape (seq (S i) n) temp1 temp2 (acc ++ [g]) s1
                = Ok genes s'
                /\ heap s' = heap s
                /\ NoDup genes
                /\ List.length genes = (List.length acc + S n)%nat
                /\ forall b, In b genes -> In b acc \/ In b temp1 \/ In b temp2).
    { intros g Hg Hnew.
      destruct (IH (S i) (acc ++ [g]) s1) as (genes & s' & Hrun & Hh & Hn & Hl & Hsub).
      - lia.
      - apply NoDup_app; [exact Hnd | repeat constructor; tauto |].
        intros x Hx [<-|[]]. contradiction.
      - intros b Hb. apply in_app_or in Hb. destruct Hb as [Hb|[<-|[]]].
        + destruct (Hinv _ Hb) as [H|H]; inversion H; subst; auto.
        + destruct Hg as [->| ->]; [left | right]; assumption.
      - exists genes, s'. split; [exact Hrun|]. split; [exact Hh|].
        split; [exact Hn|]. split.
        + rewrite Hl, length_app. simpl. lia.
        + intros b Hb. apply Hsub in Hb. destruct Hb as [Hb|Hb]; [|now right].
          apply in_app_or in Hb. destruct Hb as [Hb|[<-|[]]]; [now left|].
          right. destruct Hg as [->| ->];
            [left; eapply nth_error_In; eauto | right; eapply nth_error_In; eauto]. }
    cbn [seq crossover_loop].
    rewrite (bind_Ok _ _ _ _ _ (randint_ok tape 0 1 s ltac:(lia))).
    fold s1.
    destruct (_ =? 0).
    + rewrite (bind_Ok _ _ _ _ _ (getitem_ok _ _ _ s1 H1)).
      destruct (contains a1 acc) eqn:C1.
      * rewrite (bind_Ok _ _ _ _ _ (getitem_ok _ _ _ s1 H2)).
        apply contains_In in C1.
        apply Hstep; [now right|].
        intros C2. exact (name_lt_asym _ _ (F1 C1) (F2 C2)).
      * apply Hstep; [now left | now apply contains_not_In].
    + rewrite (bind_Ok _ _ _ _ _ (getitem_ok _ _ _ s1 H2)).
      destruct (contains a2 acc) eqn:C2.
      * rewrite (bind_Ok _ _ _ _ _ (getitem_ok _ _ _ s1 H1)).
        apply contains_In in C2.
        apply Hstep; [now left|].
        intros C1. exact (name_lt_asym _ _ (F1 C1) (F2 C2)).
      * apply Hstep; [now right | now apply contains_not_In].
Qed.
End CrossoverFacts.

Lemma Chromosome_init_empty (tape : nat -> nat) (s : State) :
  Chromosome_init tape [] s
  = Ok (List.length (heap s), []) (mkState (cursor s) (heap s ++ [empty_chromosome])).
Proof. reflexivity. Qed.

Lemma deref_new (h : list Chromosome) (c : Chromosome) :
  deref (h ++ [c]) (List.length h) = c.
Proof. unfold deref. apply nth_middle. Qed.

Lemma deref_old (h : list Chromosome) (c : Chromosome) (r : ref) :
  (r < List.length h)%nat -> deref (h ++ [c]) r = deref h r.
Proof. intros H. unfold deref. now apply app_nth1. Qed.

Lemma distinct_names_incl (l l' : list Box) :
  incl l' l -> distinct_names l -> distinct_names l'.
Proof. intros Hi Hn a b Ha Hb. apply Hn; now apply Hi. Qed.

(** Parents with pairwise-distinct genes, of equal length and over
    distinctly named items, have a child with pairwise-distinct genes, each
    taken from one of the parents; [crossover] does not raise. *)
Lemma crossover_child_distinct (tape : nat -> nat) (x y : ref) (s : State) :
  NoDup (boxes (deref (heap s) x)) ->
  NoDup (boxes (deref (heap s) y)) ->
  distinct_names (boxes (deref (heap s) x) ++ boxes (deref (heap s) y)) ->
  List.length (boxes (deref (heap s) x)) = List.length (boxes (deref (heap s) y)) ->
  exists child s',
    crossover tape x y s = Ok child s'
    /\ NoDup (boxes (deref (heap s') child))
    /\ List.length (boxes (deref (heap s') child))
       = List.length (boxes (deref (heap s) x))
    /\ forall b, In b (boxes (deref (heap s') child)) ->
                 In b (boxes (deref (heap s) x)) \/ In b (boxes (deref (heap s) y)).
Proof.
  intros Hx Hy Hn Hlen.
  set (cx := deref (heap s) x) in *. set (cy := deref (heap s) y) in *.
  unfold crossover.
  rewrite (bind_Ok _ _ s s cx) by reflexivity.
  rewrite (bind_Ok _ _ s s cy) by reflexivity.
  destruct (dupe_check cx cy).
  - exists x, s. unfold ret. fold cx. repeat split; auto.
  - rewrite (bind_Ok _ _ _ _ _ (Chromosome_init_empty tape s)).
    set (baby := List.length (heap s)).
    set (s1 := mkState (cursor s) (heap s ++ [empty_chromosome])).
    rewrite (bind_Ok _ _ s1 s1 empty_chromosome)
      by (unfold load, s1; cbn [heap]; now rewrite deref_new).
    cbn [boxes empty_chromosome].
    destruct (crossover_loop_spec tape (sorted_by_name (boxes cx))
                (sorted_by_name (boxes cy))) with
        (n := List.length (sorted_by_name (boxes cx))) (i := 0%nat)
        (acc := @nil Box) (s := s1)
      as (genes & s2 & Hrun & Hh & Hnd & Hl & Hsub).
    + apply sorted_by_name_strict; [exact Hx|].
      eapply distinct_names_incl; [|exact Hn]. apply incl_appl, incl_refl.
    + apply sorted_by_name_strict; [exact Hy|].
      eapply distinct_names_incl; [|exact Hn]. apply incl_appr, incl_refl.
    + unfold sorted_by_name. rewrite !sort_by_length. now symmetry.
    + reflexivity.
    + constructor.
    + intros b [].
    + rewrite (bind_Ok _ _ _ _ _ Hrun).
      exists baby, (mkState (cursor s2)
                      (list_set baby (set_boxes empty_chromosome genes) (heap s2))).
      split; [reflexivity|]. cbn [heap].
      rewrite deref_list_set_eq
        by (rewrite Hh; unfold s1, baby; cbn [heap]; rewrite length_app; simpl; lia).
      cbn [set_boxes boxes]. split; [exact Hnd|]. split.
      * rewrite Hl. unfold sorted_by_name. now rewrite sort_by_length.
      * intros b Hb. destruct (Hsub b Hb) as [[]|[H|H]]; [left | right];
          (eapply Permutation_in; [apply sorted_by_name_perm | exact H]).
Qed.

(** C4.  For every pair of parents with pairwise-distinct genes, of equal
    length (3 in the program) and over distinctly named items, and every
    sequence of coin draws, [crossover] returns a child whose genes are
    pairwise distinct: the no-duplicate-genes invariant is preserved. *)
Theorem crossover_keeps_genes_distinct
        (tape : nat -> nat) (x y : ref) (s : State) :
  NoDup (boxes (deref (heap s) x)) ->
  NoDup (boxes (deref (heap s) y)) ->
  distinct_names (boxes (deref (heap s) x) ++ boxes (deref (heap s) y)) ->
  List.length (boxes (deref (heap s) x)) = List.length (boxes (deref (heap s) y)) ->
  exists child s',
    crossover tape x y s = Ok child s'
    /\ NoDup (boxes (deref (heap s') child)).
Proof.
  intros Hx Hy Hn Hlen.
  destruct (crossover_child_distinct tape x y s Hx Hy Hn Hlen)
    as (c & t & Hrun & Hnd & _).
  exists c, t. split; assumption.
Qed.

Ltac distinct_names_boxes :=
  let a := fresh in let b := fresh in
  let Ha := fresh in let Hb := fresh in let Hab := fresh in
  intros a b Ha Hb Hab; simpl in Ha, Hb;
  repeat (destruct Ha as [<-|Ha]; [|]);
  repeat (destruct Hb as [<-|Hb]; [|]);
  try reflexivity; try discriminate Hab; try contradiction.

Lemma crossover_keeps_genes_distinct_witness :
  exists child s',
    crossover (fun n => n) 0%nat 1%nat
      (mkState 0 [mkChromosome [mkBox 0 "a" 20 6; mkBox 1 "b" 30 5; mkBox 2 "c" 60 8] 110 19 19;
                  mkChromosome [mkBox 3 "d" 90 7; mkBox 2 "c" 60 8; mkBox 1 "b" 30 5] 180 20 (-10)])
    = Ok child s'
    /\ NoDup (boxes (deref (heap s') child)).
Proof.
  apply crossover_keeps_genes_distinct.
  - simpl. nodup_boxes.
  - simpl. nodup_boxes.
  - simpl. distinct_names_boxes.
  - reflexivity.
Defined.

(** There is no run of [crossover] on two non-identical, duplicate-free
    3-gene parents over distinctly named items whose child holds an item
    twice. *)
Lemma crossover_has_no_duplicating_run :
  ~ exists (tape : nat -> nat) (x y : ref) (s : State) (child : ref) (s' : State),
      x <> y
      /\ List.length (boxes (deref (heap s) x)) = 3%nat
      /\ List.length (boxes (deref (heap s) y)) = 3%nat
      /\ NoDup (boxes (deref (heap s) x))
      /\ NoDup (boxes (deref (heap s) y))
      /\ distinct_names (boxes (deref (heap s) x) ++ boxes (deref (heap s) y))
      /\ crossover tape x y s = Ok child s'
      /\ ~ NoDup (boxes (deref (heap s') child)).
Proof.
  intros (tape & x & y & s & child & s' & _ & Hlx & Hly & Hx & Hy & Hn & Hrun & Hdup).
  destruct (crossover_child_distinct tape x y s Hx Hy Hn ltac:(congruence))
    as (c & t & Hrun' & Hnd & _).
  rewrite Hrun in Hrun'. inversion Hrun'; subst. contradiction.
Qed.

(** ** Computations with fuel *)

Section FuelFacts.
Variable tape : nat -> nat.

Lemma good_retF {A} (a : A) : good tape (retF a).
Proof.
  split; [|split].
  - intros f f' s r _ H. exact H.
  - intros f f' s c pop x _ H. discriminate H.
  - intros s _. exists 0%nat. eexists. reflexivity.
Qed.

Lemma good_lift {A} (m : M A) : good tape (lift m).
Proof.
  split; [|split].
  - intros f f' s r _ H. exact H.
  - intros f f' s c pop x _ H. discriminate H.
  - intros s _. exists 0%nat. eexists. reflexivity.
Qed.

Lemma good_bindF {A B} (m : FM A) (k : A -> FM B) :
  good tape m -> (forall a, good tape (k a)) -> good tape (bindF m k).
Proof.
  intros (Mm & Pm & Tm) Hk.
  assert (Mk : forall a, mono (k a)) by (intros a; apply Hk).
  assert (Pk : forall a, prog tape (k a)) by (intros a; apply Hk).
  assert (Tk : forall a s, fair tape (k a) s -> terminates (k a) s)
    by (intros a; apply Hk).
  split; [|split].
  - intros f f' s r Hf. unfold bindF.
    destruct (m f s) as [[a s'|e]|c pop x] eqn:E; intros H; try discriminate.
    + rewrite (Mm _ _ _ _ Hf E). exact (Mk a _ _ _ _ Hf H).
    + now rewrite (Mm _ _ _ _ Hf E).
  - intros f f' s c pop x Hf. unfold bindF.
    destruct (m f s) as [[a s'|e]|c0 pop0 x0] eqn:E; intros H; try discriminate.
    + rewrite (Mm _ _ _ _ Hf E). exact (Pk a _ _ _ _ _ _ Hf H).
    + inversion H; subst.
      destruct (Pm _ _ _ _ _ _ Hf E) as [E'|Hex]; [|now right].
      left. now rewrite E'.
  - intros s Hfair.
    destruct (Tm s) as (f0 & r & E0).
    { intros f c pop x E. apply (Hfair f). unfold bindF. now rewrite E. }
    destruct r as [a s'|e].
    + destruct (Tk a s') as (f2 & r2 & E2).
      { intros f c pop x E.
        assert (E1 : m (Nat.max f f0) s = Done (Ok a s'))
          by (apply (Mm f0); [lia | exact E0]).
        destruct (Pk a f (Nat.max f f0) s' c pop x ltac:(lia) E) as [E'|Hex];
          [|exact Hex].
        apply (Hfair (Nat.max f f0)). unfold bindF. now rewrite E1. }
      exists (Nat.max f0 f2), r2. unfold bindF.
      rewrite (Mm f0 (Nat.max f0 f2) _ _ ltac:(lia) E0).
      apply (Mk a f2); [lia | exact E2].
    + exists f0, (Raise e). unfold bindF. now rewrite E0.
Qed.

Lemma choice_pick {A} (l : list A) (s : State) :
  choice tape l s
  = match pick tape (cursor s) l with
    | Some y => Ok y (mkState (S (cursor s)) (heap s))
    | None => Raise IndexError
    end.
Proof. destruct l; reflexivity. Qed.

(** *** The re-draw loop *)

Lemma redraw_mono (c : nat) (pop : list ref) (x : ref) :
  forall f f' y s r,
    (f <= f')%nat -> redraw tape f c pop x y s = Done r ->
    redraw tape f' c pop x y s = Done r.
Proof.
  induction f as [|f IH]; intros f' y s r Hf H.
  - simpl in H. destruct (x =? y)%nat eqn:E; [discriminate|].
    destruct f'; simpl; now rewrite E.
  - destruct f' as [|f']; [lia|]. simpl in *.
    destruct (x =? y)%nat; [|exact H].
    destruct (choice tape pop s) as [y' s'|e]; [|exact H].
    apply IH; [lia | exact H].
Qed.

Lemma redraw_spin_point (c : nat) (pop : list ref) (x : ref) :
  forall f y s c' pop' x',
    redraw tape f c pop x y s = Spin c' pop' x' ->
    c' = c /\ pop' = pop /\ x' = x /\ x = y.
Proof.
  induction f as [|f IH]; intros y s c' pop' x' H; simpl in H.
  - destruct (Nat.eqb_spec x y); [|discriminate].
    inversion H; subst. auto.
  - destruct (Nat.eqb_spec x y); [|discriminate].
    destruct (choice tape pop s) as [y' s'|err]; [|discriminate].
    destruct (IH _ _ _ _ _ H) as (-> & -> & -> & _). auto.
Qed.

Lemma redraw_spin_or_exit (c : nat) (pop : list ref) (x : ref) :
  forall f s,
    redraw tape f c pop x x s = Spin c pop x
    \/ exists k, pick tape (cursor s + k)%nat pop <> Some x.
Proof.
  induction f as [|f IH]; intros s; simpl; rewrite Nat.eqb_refl.
  - now left.
  - rewrite choice_pick.
    destruct (pick tape (cursor s) pop) as [y'|] eqn:E.
    + destruct (Nat.eq_dec y' x) as [->|Hne].
      * destruct (IH (mkState (S (cursor s)) (heap s))) as [H|(k & Hk)];
          [now left|].
        right. exists (S k). cbn [cursor] in Hk.
        now replace (cursor s + S k)%nat with (S (cursor s) + k)%nat by lia.
      * right. exists 0%nat. rewrite Nat.add_0_r, E. congruence.
    + right. exists 0%nat. rewrite Nat.add_0_r, E. discriminate.
Qed.

Lemma redraw_exit_done (c : nat) (pop : list ref) (x : ref) :
  forall k y s,
    pick tape (cursor s + k)%nat pop <> Some x ->
    exists f r, redraw tape f c pop x y s = Done r.
Proof.
  induction k as [|k IH]; intros y s Hk.
  - destruct (Nat.eqb_spec x y) as [<-|Hne].
    + exists 1%nat. simpl. rewrite Nat.eqb_refl, choice_pick.
      rewrite Nat.add_0_r in Hk.
      destruct (pick tape (cursor s) pop) as [y'|]; [|eauto].
      simpl. destruct (Nat.eqb_spec x y') as [->|Hne]; [congruence|eauto].
    + exists 0%nat. simpl. apply Nat.eqb_neq in Hne. rewrite Hne. eauto.
  - destruct (Nat.eqb_spec x y) as [<-|Hne].
    + destruct (pick tape (cursor s) pop) as [y'|] eqn:E.
      * destruct (IH y' (mkState (S (cursor s)) (heap s))) as (f & r & Hr).
        { cbn [cursor].
          now replace (S (cursor s) + k)%nat with (cursor s + S k)%nat by lia. }
        exists (S f), r. simpl. now rewrite Nat.eqb_refl, choice_pick, E.
      * exists 1%nat. simpl. rewrite Nat.eqb_refl, choice_pick, E. eauto.
    + exists 0%nat. simpl. apply Nat.eqb_neq in Hne. rewrite Hne. eauto.
Qed.

Lemma good_redraw_loop (pop : list ref) (x y : ref) :
  good tape (redraw_loop tape pop x y).
Proof.
  unfold redraw_loop. split; [|split].
  - intros f f' s r Hf H. eapply redraw_mono; eauto.
  - intros f f' s c pop' x' Hf H.
    destruct (redraw_spin_point _ _ _ _ _ _ _ _ _ H) as (-> & -> & -> & <-).
    destruct (redraw_spin_or_exit (cursor s) pop x f' s) as [E|Hex];
      [now left | now right].
  - intros s Hfair.
    destruct (Nat.eq_dec x y) as [<-|Hne].
    + destruct (redraw_spin_or_exit (cursor s) pop x 0 s) as [E|(k & Hk)].
      * destruct (Hfair 0%nat _ _ _ E) as (k & Hk).
        eapply redraw_exit_done; eauto.
      * eapply redraw_exit_done; eauto.
    + exists 0%nat. simpl. apply Nat.eqb_neq in Hne. rewrite Hne. eauto.
Qed.
End FuelFacts.

(** ** The evolution loop *)

Section EvolutionFacts.
Variable tape : nat -> nat.

Lemma good_breed (pop : Population) (box_list : list Box) :
  good tape (breed tape pop box_list).
Proof.
  unfold breed.
  apply good_bindF; [apply good_lift|]. intros x.
  apply good_bindF; [apply good_lift|]. intros y.
  apply good_bindF; [apply good_redraw_loop|]. intros y'.
  apply good_lift.
Qed.

Lemma good_build_nextgen (n : nat) (pop : Population) (box_list : list Box) :
  forall nextgen, good tape (build_nextgen tape n pop box_list nextgen).
Proof.
  induction n as [|n IH]; intros nextgen; simpl.
  - apply good_retF.
  - apply good_bindF; [apply good_breed|]. intros child. apply IH.
Qed.

Lemma good_generations (n : nat) (box_list : list Box) :
  forall pop nextgen, good tape (generations tape n pop box_list nextgen).
Proof.
  induction n as [|n IH]; intros pop nextgen; simpl.
  - apply good_retF.
  - apply good_bindF; [apply good_build_nextgen|]. intros nextgen1.
    apply good_bindF; [apply good_lift|]. intros [fittest nextgen2].
    apply good_bindF; [apply good_lift|]. intros f.
    destruct (fitness f =? MAX_SCORE).
    + apply good_bindF; [apply good_lift|]. intros [best nextgen3].
      apply good_retF.
    + apply good_bindF; [apply good_lift|]. intros pop'. apply IH.
Qed.

Lemma good_genetic_algo (pop : Population) (box_list : list Box) :
  good tape (genetic_algo tape pop box_list).
Proof. apply good_generations. Qed.

Lemma good_driver : good tape (driver tape).
Proof.
  unfold driver.
  apply good_bindF; [apply good_lift|]. intros [pop box_list].
  apply good_genetic_algo.
Qed.
End EvolutionFacts.

(** With every draw equal to 0 both parents of the first child are member 0
    of the initial population, and so is every re-draw: no fuel lets the
    run of the reference configuration return. *)
Lemma reference_run_spins_on_constant_draws :
  ~ exists fuel r, driver (fun _ => 0%nat) fuel initial_state = Done r.
Proof.
  intros (fuel & r & Hdone).
  destruct (good_driver (fun _ => 0%nat)) as (_ & Hprog & _).
  assert (Hspin : driver (fun _ => 0%nat) 0%nat initial_state
                  = Spin 212%nat (seq 0 35) 0%nat)
    by (vm_compute; reflexivity).
  destruct (Hprog 0%nat fuel initial_state _ _ _ ltac:(lia) Hspin)
    as [Hstill|(k & Hk)].
  - rewrite Hdone in Hstill. discriminate.
  - apply Hk. reflexivity.
Qed.

(** A population can hold one object several times: [crossover] returns
    the first parent itself when both parents hold the same boxes, and the
    child is appended as it is.  Over members that are all the object [x]
    no draw lets the re-draw loop exit. *)
Lemma redraw_cannot_exit_on_one_object (tape : nat -> nat) (c n : nat) (x : ref) :
  ~ exits tape c (repeat x (S n)) x.
Proof.
  intros (k & Hk). apply Hk. unfold pick. cbn [repeat]. f_equal.
  change (x :: repeat x n) with (repeat x (S n)). apply nth_repeat.
Qed.

Lemma pick_repeat (tape : nat -> nat) (c n : nat) (x : ref) :
  pick tape c (repeat x (S n)) = Some x.
Proof.
  unfold pick. cbn [repeat]. f_equal.
  change (x :: repeat x n) with (repeat x (S n)). apply nth_repeat.
Qed.

Lemma generations_step (tape : nat -> nat) (n : nat) (pop : Population)
      (box_list : list Box) (nextgen : Population) :
  generations tape (S n) pop box_list nextgen
  = (nextgen <~ build_nextgen tape (Z.to_nat (size nextgen)) pop box_list nextgen ;;
     '(fittest, nextgen) <~ lift (return_fittest nextgen) ;;
     f <~ lift (load fittest) ;;
     if fitness f =? MAX_SCORE then
       '(best, nextgen) <~ lift (return_fittest nextgen) ;;
       retF (Some best, pop, nextgen)
     else
       let pop := mkPopulation (population nextgen) (size pop) in
       pop <~ lift (cull pop) ;;
       let nextgen := mkPopulation [] (size nextgen) in
       generations tape n pop box_list nextgen).
Proof. reflexivity. Qed.

(** A generation that starts over members that are all the object [x] is
    left in the re-draw loop of its first child. *)
Lemma generations_spin_on_one_object
      (tape : nat -> nat) (n : nat) (pop : Population) (box_list : list Box)
      (nextgen : Population) (x : ref) (m : nat) (fuel : nat) (s : State) :
  population pop = repeat x (S m) -> 0 < size nextgen ->
  generations tape (S n) pop box_list nextgen fuel s
  = Spin (cursor s + 2) (population pop) x.
Proof.
  intros Hpop Hsize.
  cbn [generations].
  destruct (Z.to_nat (size nextgen)) as [|k] eqn:E; [lia|].
  cbn [build_nextgen]. unfold breed.
  unfold bindF at 1. unfold bindF at 1. unfold bindF at 1.
  unfold lift at 1. rewrite choice_pick, Hpop, pick_repeat.
  unfold bindF at 1. unfold lift at 1.
  rewrite choice_pick. cbn [cursor heap]. rewrite pick_repeat.
  unfold bindF at 1. unfold redraw_loop. cbn [cursor heap].
  set (s2 := mkState (S (S (cursor s))) (heap s)).
  destruct (redraw_spin_or_exit tape (S (S (cursor s))) (repeat x (S m)) x fuel s2)
    as [Hspin|(j & Hj)].
  - rewrite Hspin. f_equal. lia.
  - exfalso. apply Hj. apply pick_repeat.
Qed.

(** C3.  The run of the reference configuration does not terminate for
    every sequence of draws.  Under the 385 draws of [lock_tape] every
    child of the first generation is member 0 of the initial population,
    the object itself; its fitness is -10, not the target; [cull] keeps 17
    references to that one object.  The second generation draws its two
    parents from them and enters the re-draw loop, at draw 387, with no
    other object to draw: whatever the draws that follow and however many
    re-draws are allowed, the run is left in that loop. *)
Theorem reference_run_locks_on_one_object (rest : nat -> nat) (fuel : nat) :
  driver (lock_tape rest) fuel initial_state
  = Spin 387 (repeat 0%nat 17) 0%nat
  /\ ~ exits (lock_tape rest) 387 (repeat 0%nat 17) 0%nat.
Proof.
  split; [|apply redraw_cannot_exit_on_one_object].
  unfold driver. unfold bindF at 1, lift at 1.
  destruct (generate_population (lock_tape rest) (Population_init POP_SIZE)
              the_boxes initial_state) as [[pop bl] s|e] eqn:Egen;
    vm_compute in Egen; [|discriminate Egen].
  injection Egen as <- <- <-.
  unfold genetic_algo. rewrite generations_step.
  unfold bindF at 1.
  match goal with
  | |- context [build_nextgen ?t ?n ?p ?b ?g fuel ?s] =>
      destruct (build_nextgen t n p b g 0%nat s) as [[ng1 s1|e]|c' p' x'] eqn:Eb;
      pose proof Eb as Eb'; vm_compute in Eb'; try discriminate Eb';
      injection Eb' as <- <-;
      rewrite (proj1 (good_build_nextgen t _ _ _ _) 0%nat fuel _ _ (Nat.le_0_l _) Eb)
  end.
  clear Eb.
  unfold bindF at 1, lift at 1.
  match goal with
  | |- context [return_fittest ?p ?s] =>
      destruct (return_fittest p s) as [[f ng2] s2|e] eqn:Er;
      vm_compute in Er; [|discriminate Er]; injection Er as <- <- <-
  end.
  unfold bindF at 1, lift at 1.
  match goal with
  | |- context [load ?r ?s] =>
      destruct (load r s) as [c s3|e] eqn:El;
      vm_compute in El; [|discriminate El]; injection El as <- <-
  end.
  cbn [fitness]. change (-10 =? MAX_SCORE) with false. cbv iota zeta.
  unfold bindF at 1, lift at 1.
  match goal with
  | |- context [cull ?p ?s] =>
      destruct (cull p s) as [pop1 s4|e] eqn:Ec;
      vm_compute in Ec; [|discriminate Ec]; injection Ec as <- <-
  end.
  eapply eq_trans;
    [ apply (generations_spin_on_one_object (lock_tape rest) 3 _ the_boxes _
               0%nat 16%nat); reflexivity
    | reflexivity ].
Qed.

(** ** Early termination *)

Lemma return_fittest_inv (p : Population) (s : State) (f : ref) (p' : Population)
      (s' : State) :
  return_fittest p s = Ok (f, p') s' ->
  s' = s
  /\ p' = mkPopulation (sort_by (fitness_ge (heap s)) (population p)) (size p)
  /\ exists rest, sort_by (fitness_ge (heap s)) (population p) = f :: rest.
Proof.
  unfold return_fittest, bind, get_fittest, getitem, ret. cbn [population size].
  destruct (sort_by (fitness_ge (heap s)) (population p)) as [|a rest] eqn:E;
    simpl; intros H; [discriminate|].
  inversion H; subst. eauto.
Qed.

(** Asked twice, [return_fittest] answers the same: the second sort finds
    the members in order. *)
Lemma return_fittest_again (p : Population) (s : State) (f : ref) (p' : Population) :
  return_fittest p s = Ok (f, p') s -> return_fittest p' s = Ok (f, p') s.
Proof.
  intros H. destruct (return_fittest_inv _ _ _ _ _ H) as (_ & -> & rest & E).
  unfold return_fittest, bind, get_fittest, getitem, ret. cbn [population size].
  rewrite sort_by_idempotent
    by (apply fitness_ge_total || apply fitness_ge_trans).
  rewrite E. reflexivity.
Qed.

(** C8.  In a generation whose fully built buffer [nextgen1] has a fittest
    member of fitness 22, [genetic_algo] returns that member at once: the
    result is [fittest], of fitness 22 and at least as fit as every member
    of the buffer; the population is left as it was at the start of the
    generation and the buffer still holds all its members, no cull having
    taken place. *)
Theorem early_return_on_target_fitness
        (tape : nat -> nat) (n : nat) (pop : Population) (box_list : list Box)
        (nextgen : Population) (fuel : nat) (s : State)
        (nextgen1 : Population) (s1 : State) (fittest : ref) (nextgen2 : Population) :
  build_nextgen tape (Z.to_nat (size nextgen)) pop box_list nextgen fuel s
  = Done (Ok nextgen1 s1) ->
  return_fittest nextgen1 s1 = Ok (fittest, nextgen2) s1 ->
  fitness (deref (heap s1) fittest) = MAX_SCORE ->
  generations tape (S n) pop box_list nextgen fuel s
  = Done (Ok (Some fittest, pop, nextgen2) s1)
  /\ fitness (deref (heap s1) fittest) = 22
  /\ Permutation (population nextgen1) (population nextgen2)
  /\ (forall m, In m (population nextgen1) ->
                fitness (deref (heap s1) m) <= fitness (deref (heap s1) fittest)).
Proof.
  intros Hbuild Hret Hfit.
  pose proof (return_fittest_again _ _ _ _ Hret) as Hret2.
  destruct (return_fittest_inv _ _ _ _ _ Hret) as (_ & Hp & rest & E).
  split; [|split; [exact Hfit|split]].
  - cbn [generations]. unfold bindF at 1. rewrite Hbuild.
    unfold bindF at 1. unfold lift at 1. rewrite Hret.
    unfold bindF at 1. unfold lift at 1. unfold load.
    rewrite Hfit, Z.eqb_refl.
    unfold bindF, lift. rewrite Hret2. reflexivity.
  - subst nextgen2. cbn [population]. apply Permutation_sym, sort_by_perm.
  - intros m Hm.
    pose proof (descending_sort_by (heap s1) (population nextgen1)) as Hd.
    rewrite E in Hd. apply StronglySorted_inv in Hd. destruct Hd as [_ Hall].
    assert (Hin : In m (fittest :: rest))
      by (rewrite <- E; eapply Permutation_in;
          [apply Permutation_sym, sort_by_perm | exact Hm]).
    destruct Hin as [<-|Hin]; [lia|].
    rewrite Forall_forall in Hall. now apply Hall.
Qed.

(** Every chromosome that [genetic_algo] returns has been returned on that
    path: its fitness is 22. *)
Lemma generations_result_fitness (tape : nat -> nat) (box_list : list Box) :
  forall (n : nat) (pop nextgen : Population) (fuel : nat) (s : State)
         (best : ref) (pop' nextgen' : Population) (s' : State),
    generations tape n pop box_list nextgen fuel s
    = Done (Ok (Some best, pop', nextgen') s') ->
    fitness (deref (heap s') best) = MAX_SCORE.
Proof.
  induction n as [|n IH]; intros pop nextgen fuel s best pop' nextgen' s' H.
  - discriminate H.
  - cbn [generations] in H. unfold bindF at 1 in H.
    destruct (build_nextgen _ _ _ _ _ _ _) as [[ng1 s1|e]|c m x]; try discriminate.
    unfold bindF at 1 in H. unfold lift at 1 in H.
    destruct (return_fittest ng1 s1) as [[f ng2] s2|e] eqn:Hret; try discriminate.
    destruct (return_fittest_inv _ _ _ _ _ Hret) as (-> & _ & _).
    unfold bindF at 1 in H. unfold lift at 1, load in H.
    destruct (Z.eqb_spec (fitness (deref (heap s1) f)) MAX_SCORE) as [Hfit|Hne].
    + unfold bindF, lift, retF in H.
      rewrite (return_fittest_again _ _ _ _ Hret) in H.
      inversion H; subst. exact Hfit.
    + unfold bindF at 1 in H. unfold lift at 1 in H.
      destruct (cull _ s1) as [pop1 s3|e]; try discriminate.
      eapply IH; exact H.
Qed.

Lemma early_return_on_target_fitness_witness :
  let a := mkBox 0 "a" 20 6 in
  let b := mkBox 1 "b" 30 5 in
  let c := mkBox 2 "c" 60 8 in
  let f := mkBox 5 "f" 70 9 in
  let pop := mkPopulation [0%nat; 1%nat] 2 in
  let s := mkState 0 [mkChromosome [a; b; f] 120 20 22;
                      mkChromosome [a; b; c] 110 19 19] in
  exists s1,
    generations (fun n => n) 5 pop the_boxes (Population_init 1) 0%nat s
    = Done (Ok (Some 2%nat, pop, mkPopulation [2%nat] 1) s1)
    /\ fitness (deref (heap s1) 2%nat) = 22.
Proof.
  intros a b c f pop s.
  edestruct (early_return_on_target_fitness (fun n => n) 4 pop the_boxes
               (Population_init 1) 0%nat s) as (Hrun & Hfit & _).
  - vm_compute. reflexivity.
  - vm_compute. reflexivity.
  - vm_compute. reflexivity.
  - eexists. split; [exact Hrun | exact Hfit].
Defined.

(* ================================================================== *)
(** * Part III: further properties of the program *)
(* ================================================================== *)

(** ** Fitness depends on the genes as a multiset *)

Lemma fold_left_plus_shift (f : Box -> Z) (l : list Box) (a : Z) :
  fold_left (fun sum i => sum + f i) l a
  = a + fold_left (fun sum i => sum + f i) l 0.
Proof.
  revert a; induction l as [|b l IH]; intros a; cbn [fold_left]; [lia|].
  rewrite (IH (a + f b)), (IH (0 + f b)). lia.
Qed.

Lemma fold_left_plus_perm (f : Box -> Z) (l l' : list Box) :
  Permutation l l' ->
  forall a, fold_left (fun sum i => sum + f i) l a
            = fold_left (fun sum i => sum + f i) l' a.
Proof.
  induction 1 as [|x l l' _ IH|x y l|l l' l'' _ IH1 _ IH2]; intros a; simpl.
  - reflexivity.
  - apply IH.
  - f_equal. lia.
  - now rewrite IH1.
Qed.

Lemma calc_fitness_sums (self : Chromosome) :
  calc_fitness self
  = if 120 <? sum_weight self
    then sum_value self - int_half (sum_weight self - 120)
    else if sum_weight self =? 120 then sum_value self + ideal_weight_bonus
         else sum_value self.
Proof.
  unfold calc_fitness, sum_value, sum_weight.
  now rewrite fitness_fold_split.
Qed.

Lemma permuted_genes_same_fitness (c1 c2 : Chromosome) :
  Permutation (boxes c1) (boxes c2) ->
  sum_weight c1 = sum_weight c2
  /\ sum_value c1 = sum_value c2
  /\ calc_fitness c1 = calc_fitness c2.
Proof.
  intros Hp.
  assert (Hw : sum_weight c1 = sum_weight c2)
    by (unfold sum_weight; now apply fold_left_plus_perm).
  assert (Hv : sum_value c1 = sum_value c2)
    by (unfold sum_value; now apply fold_left_plus_perm).
  repeat split; try assumption.
  now rewrite !calc_fitness_sums, Hw, Hv.
Qed.

(** X1.  The three derived quantities of a chromosome are functions of the
    multiset of its genes: chromosomes holding the same boxes in any order
    have the same weight, value and fitness. *)
Theorem fitness_of_permuted_genes (c1 c2 : Chromosome) :
  Permutation (boxes c1) (boxes c2) ->
  sum_weight c1 = sum_weight c2
  /\ sum_value c1 = sum_value c2
  /\ calc_fitness c1 = calc_fitness c2.
Proof. apply permuted_genes_same_fitness. Qed.

Lemma fitness_of_permuted_genes_witness :
  calc_fitness (mkChromosome [mkBox 0 "a" 20 6; mkBox 5 "f" 70 9; mkBox 1 "b" 30 5] 0 0 0)
  = calc_fitness (mkChromosome [mkBox 1 "b" 30 5; mkBox 0 "a" 20 6; mkBox 5 "f" 70 9] 0 0 0).
Proof.
  apply fitness_of_permuted_genes. simpl.
  apply Permutation_sym.
  eapply perm_trans; [apply perm_swap | apply perm_skip, perm_swap].
Defined.



(** ** dupe_check as a relation *)

(** X3.  [dupe_check] is an equivalence on chromosomes (whatever the names
    of the boxes), and chromosomes it relates hold the same boxes up to
    order, hence have the same fitness. *)
Theorem dupe_check_equivalence (x y z : Chromosome) :
  dupe_check x x = true
  /\ dupe_check x y = dupe_check y x
  /\ (dupe_check x y = true -> dupe_check y z = true -> dupe_check x z = true)
  /\ (dupe_check x y = true ->
      Permutation (boxes x) (boxes y) /\ calc_fitness x = calc_fitness y).
Proof.
  split; [now apply dupe_check_true|]. split; [|split].
  - destruct (dupe_check x y) eqn:Exy; destruct (dupe_check y x) eqn:Eyx;
      try reflexivity.
    + apply dupe_check_true in Exy. symmetry in Exy.
      apply dupe_check_true in Exy. congruence.
    + apply dupe_check_true in Eyx. symmetry in Eyx.
      apply dupe_check_true in Eyx. congruence.
  - rewrite !dupe_check_true. congruence.
  - intros H. apply dupe_check_true in H.
    assert (Hp : Permutation (boxes x) (boxes y)).
    { eapply perm_trans; [apply Permutation_sym, sorted_by_name_perm|].
      rewrite H. apply sorted_by_name_perm. }
    split; [exact Hp | now apply permuted_genes_same_fitness].
Qed.

Lemma dupe_check_equivalence_witness :
  let x := mkChromosome [mkBox 2 "c" 60 8; mkBox 0 "a" 20 6] 0 0 0 in
  let y := mkChromosome [mkBox 0 "a" 20 6; mkBox 2 "c" 60 8] 0 0 0 in
  Permutation (boxes x) (boxes y) /\ calc_fitness x = calc_fitness y.
Proof.
  exact (proj2 (proj2 (proj2 (dupe_check_equivalence
           (mkChromosome [mkBox 2 "c" 60 8; mkBox 0 "a" 20 6] 0 0 0)
           (mkChromosome [mkBox 0 "a" 20 6; mkBox 2 "c" 60 8] 0 0 0)
           (mkChromosome [] 0 0 0)))) eq_refl).
Defined.

(** ** get_fittest and return_fittest *)

Lemma filter_insert_by_key (h : list Chromosome) (v : Z) (a : ref) (l : list ref) :
  descending h l ->
  filter (fun m => fitness (deref h m) =? v) (insert_by (fitness_ge h) a l)
  = filter (fun m => fitness (deref h m) =? v) (a :: l).
Proof.
  induction 1 as [|b l Hs IH Hall]; [reflexivity|].
  cbn [insert_by]. unfold fitness_ge at 1.
  destruct (Z.leb_spec (fitness (deref h b)) (fitness (deref h a))) as [Hle|Hgt];
    [reflexivity|].
  cbn [filter] in *. rewrite IH.
  destruct (Z.eqb_spec (fitness (deref h a)) v) as [Ha|Ha];
    destruct (Z.eqb_spec (fitness (deref h b)) v) as [Hb|Hb];
    try reflexivity.
  lia.
Qed.

(** X4.  [get_fittest] is stable and idempotent: members of equal fitness
    keep the order they had, and sorting a second time changes nothing. *)
Theorem get_fittest_stable_idempotent (self : Population) (s : State) :
  exists members,
    get_fittest self s = Ok (mkPopulation members (size self)) s
    /\ (forall v, filter (fun m => fitness (deref (heap s) m) =? v) members
                  = filter (fun m => fitness (deref (heap s) m) =? v)
                           (population self))
    /\ get_fittest (mkPopulation members (size self)) s
       = Ok (mkPopulation members (size self)) s.
Proof.
  exists (sort_by (fitness_ge (heap s)) (population self)).
  split; [reflexivity|]. split.
  - intros v. induction (population self) as [|a l IH]; [reflexivity|].
    cbn [sort_by]. rewrite filter_insert_by_key by apply descending_sort_by.
    cbn [filter]. now rewrite IH.
  - unfold get_fittest. cbn [population size].
    rewrite sort_by_idempotent
      by (apply fitness_ge_total || apply fitness_ge_trans).
    reflexivity.
Qed.

Lemma return_fittest_cases (p : Population) (s : State) :
  (population p = [] -> return_fittest p s = Raise IndexError)
  /\ (population p <> [] ->
      exists f p',
        return_fittest p s = Ok (f, p') s
        /\ In f (population p)
        /\ (forall m, In m (population p) ->
              fitness (deref (heap s) m) <= fitness (deref (heap s) f))
        /\ Permutation (population p) (population p')
        /\ descending (heap s) (population p')
        /\ size p' = size p).
Proof.
  split.
  - intros E. unfold return_fittest, bind, get_fittest. now rewrite E.
  - intros Hne.
    pose proof (sort_by_perm (fitness_ge (heap s)) (population p)) as Hperm.
    pose proof (descending_sort_by (heap s) (population p)) as Hd.
    destruct (sort_by (fitness_ge (heap s)) (population p)) as [|f rest] eqn:E.
    + apply Permutation_nil in Hperm. contradiction.
    + exists f, (mkPopulation (f :: rest) (size p)).
      split; [unfold return_fittest, bind, get_fittest; cbn [population size];
              now rewrite E|].
      split; [eapply Permutation_in; [exact Hperm | now left]|].
      split; [|split; [now apply Permutation_sym | split; [exact Hd | reflexivity]]].
      intros m Hm.
      assert (Hin : In m (f :: rest))
        by (eapply Permutation_in; [apply Permutation_sym, Hperm | exact Hm]).
      apply StronglySorted_inv in Hd. destruct Hd as [_ Hall].
      destruct Hin as [<-|Hin]; [lia|].
      rewrite Forall_forall in Hall. now apply Hall.
Qed.

(** X5.  [return_fittest] raises [IndexError] on a population without
    members; otherwise it returns a member that no member exceeds in fitness,
    leaves the members sorted, and touches neither heap nor generator. *)
Theorem return_fittest_spec (p : Population) (s : State) :
  (population p = [] -> return_fittest p s = Raise IndexError)
  /\ (population p <> [] ->
      exists f p',
        return_fittest p s = Ok (f, p') s
        /\ In f (population p)
        /\ (forall m, In m (population p) ->
              fitness (deref (heap s) m) <= fitness (deref (heap s) f))
        /\ Permutation (population p) (population p')
        /\ descending (heap s) (population p')
        /\ size p' = size p).
Proof. apply return_fittest_cases. Qed.

Lemma return_fittest_spec_witness :
  return_fittest (Population_init 35) initial_state = Raise IndexError.
Proof.
  apply (proj1 (return_fittest_spec (Population_init 35) initial_state)).
  reflexivity.
Defined.

(** ** mutant_prob *)

Lemma mutant_prob_tenths (k n : Z) :
  Qle_bool (inject_Z n) ((k # 10) * 10) = (n <=? k).
Proof.
  destruct (Z.leb_spec n k) as [H|H].
  - apply Qle_bool_iff. unfold Qle. simpl. lia.
  - destruct (Qle_bool _ _) eqn:E; [|reflexivity].
    apply Qle_bool_iff in E. unfold Qle in E. simpl in E. lia.
Qed.

(** X6.  Called with the probability [k/10], [mutant_prob] answers true
    exactly when the draw of [randint(0, 10)] is at most [k]: that is for
    [k + 1] of the eleven outcomes, 4 of 11 for the probability 0.30 of
    [genetic_algo]. *)
Theorem mutant_prob_tenths_outcomes (tape : nat -> nat) (k : Z) (s : State) :
  0 <= k <= 10 ->
  mutant_prob tape (k # 10) s
  = Ok (Z.of_nat (tape (cursor s) mod 11) <=? k)
       (mkState (S (cursor s)) (heap s))
  /\ List.length (filter (fun d => Z.of_nat d <=? k) (seq 0 11))
     = Z.to_nat (k + 1).
Proof.
  intros Hk. split.
  - rewrite mutant_prob_ok. now rewrite mutant_prob_tenths.
  - assert (Hcases : k = 0 \/ k = 1 \/ k = 2 \/ k = 3 \/ k = 4 \/ k = 5
                     \/ k = 6 \/ k = 7 \/ k = 8 \/ k = 9 \/ k = 10) by lia.
    repeat (destruct Hcases as [->|Hcases]; [reflexivity|]).
    subst k. reflexivity.
Qed.

Lemma mutant_prob_tenths_outcomes_witness :
  List.length (filter (fun d => Z.of_nat d <=? 3) (seq 0 11)) = 4%nat.
Proof.
  apply (proj2 (mutant_prob_tenths_outcomes (fun n => n) 3 initial_state
                  ltac:(lia))).
Defined.

(** ** The re-draw loop *)

Lemma pick_In {A} (tape : nat -> nat) (c : nat) (l : list A) (y : A) :
  pick tape c l = Some y -> In y l.
Proof.
  unfold pick. destruct l as [|d l0]; [discriminate|].
  intros H. apply (f_equal (fun o => match o with Some v => v | None => y end)) in H.
  rewrite <- H. apply nth_In. apply Nat.mod_upper_bound. discriminate.
Qed.

Lemma redraw_inv (tape : nat -> nat) (c : nat)
        (pop : list ref) (x : ref) :
  forall (fuel : nat) (y : ref) (s : State) (y' : ref) (s' : State),
    redraw tape fuel c pop x y s = Done (Ok y' s') ->
    y' <> x
    /\ heap s' = heap s
    /\ (cursor s <= cursor s')%nat
    /\ (y <> x -> y' = y /\ s' = s)
    /\ (y = x -> In y' pop).
Proof.
  induction fuel as [|fuel IH]; intros y s y' s' H; simpl in H.
  - destruct (Nat.eqb_spec x y) as [->|Hne]; [discriminate|].
    inversion H; subst. repeat split; auto; congruence.
  - destruct (Nat.eqb_spec x y) as [->|Hne].
    + rewrite choice_pick in H.
      destruct (pick tape (cursor s) pop) as [y1|] eqn:E; [|discriminate].
      destruct (IH _ _ _ _ H) as (H1 & H2 & H3 & H4 & H5).
      pose proof (pick_In _ _ _ _ E) as Hin.
      cbn [heap cursor] in *.
      split; [exact H1|]. split; [exact H2|]. split; [lia|].
      split; [congruence|]. intros _.
      destruct (Nat.eq_dec y1 y) as [Ey|Ey].
      * now apply H5.
      * destruct (H4 Ey) as [-> _]. exact Hin.
    + inversion H; subst. repeat split; auto; congruence.
Qed.

(** X7.  The second parent that the re-draw loop returns is never the
    first parent; it is the candidate it was given, with no draw made, when
    that one already differs, and a member of the population otherwise.
    The loop does not touch the heap. *)
Theorem redraw_returns_other_parent (tape : nat -> nat) (c : nat)
        (pop : list ref) (x : ref) :
  forall (fuel : nat) (y : ref) (s : State) (y' : ref) (s' : State),
    redraw tape fuel c pop x y s = Done (Ok y' s') ->
    y' <> x
    /\ heap s' = heap s
    /\ (cursor s <= cursor s')%nat
    /\ (y <> x -> y' = y /\ s' = s)
    /\ (y = x -> In y' pop).
Proof. apply redraw_inv. Qed.

Lemma redraw_returns_other_parent_witness :
  exists y' s',
    redraw (fun n => n) 3 0 [5%nat; 7%nat] 5%nat 5%nat initial_state = Done (Ok y' s')
    /\ y' <> 5%nat.
Proof.
  exists 7%nat, (mkState 2 []).
  split; [reflexivity|].
  exact (proj1 (redraw_returns_other_parent (fun n => n) 0 [5%nat; 7%nat] 5%nat
                  3 5%nat initial_state 7%nat (mkState 2 []) eq_refl)).
Defined.

(** ** Reasoning on results *)

Lemma bind_inv_Ok {A B} (m : M A) (k : A -> M B) (s s' : State) (b : B) :
  bind m k s = Ok b s' ->
  exists a s1, m s = Ok a s1 /\ k a s1 = Ok b s'.
Proof.
  unfold bind. destruct (m s) as [a s1|e]; [eauto | discriminate].
Qed.

Lemma bindF_inv_Ok {A B} (m : FM A) (k : A -> FM B) (fuel : nat)
      (s s' : State) (b : B) :
  bindF m k fuel s = Done (Ok b s') ->
  exists a s1, m fuel s = Done (Ok a s1) /\ k a fuel s1 = Done (Ok b s').
Proof.
  unfold bindF. destruct (m fuel s) as [[a s1|e]|c p x]; [eauto | discriminate..].
Qed.

Lemma okM_bind {A B} (m : M A) (k : A -> M B) (s : State)
      (Q1 : A -> State -> Prop) (Q2 : B -> State -> Prop) :
  okM Q1 (m s) -> (forall a s1, Q1 a s1 -> okM Q2 (k a s1)) ->
  okM Q2 (bind m k s).
Proof.
  unfold bind. destruct (m s) as [a s1|e]; simpl; [|tauto].
  intros H1 H2. now apply H2.
Qed.

Lemma okF_bindF {A B} (m : FM A) (k : A -> FM B) (fuel : nat) (s : State)
      (Q1 : A -> State -> Prop) (Q2 : B -> State -> Prop) :
  okF Q1 (m fuel s) -> (forall a s1, Q1 a s1 -> okF Q2 (k a fuel s1)) ->
  okF Q2 (bindF m k fuel s).
Proof.
  unfold bindF. destruct (m fuel s) as [[a s1|e]|c p x]; simpl; try tauto.
  intros H1 H2. now apply H2.
Qed.

Lemma okF_lift {A} (m : M A) (fuel : nat) (s : State) (Q : A -> State -> Prop) :
  okM Q (m s) -> okF Q (lift m fuel s).
Proof. unfold lift. destruct (m s); simpl; tauto. Qed.

Lemma okM_weaken {A} (Q Q' : A -> State -> Prop) (r : Res A) :
  (forall a s, Q a s -> Q' a s) -> okM Q r -> okM Q' r.
Proof. destruct r; simpl; auto. Qed.

Lemma okF_weaken {A} (Q Q' : A -> State -> Prop) (o : Outcome A) :
  (forall a s, Q a s -> Q' a s) -> okF Q o -> okF Q' o.
Proof. destruct o as [[a s|e]|c p x]; simpl; auto. Qed.

(** ** shuffle *)

Lemma list_set_put_perm {A} (l : list A) (j : nat) (x a : A) :
  nth_error l j = Some x -> Permutation (x :: list_set j a l) (a :: l).
Proof.
  revert j; induction l as [|b l IH]; intros [|j] H; simpl in *; try discriminate.
  - inversion H; subst. apply perm_swap.
  - eapply perm_trans; [apply perm_swap|].
    eapply perm_trans; [apply perm_skip, IH, H|]. apply perm_swap.
Qed.

(** [x[i], x[j] = x[j], x[i]] permutes [x]. *)
Lemma list_swap_perm {A} (l : list A) (i j : nat) (xi xj : A) :
  nth_error l i = Some xi -> nth_error l j = Some xj ->
  Permutation (list_set j xi (list_set i xj l)) l.
Proof.
  revert i j; induction l as [|a l IH]; intros [|i] [|j] Hi Hj; simpl in *;
    try discriminate.
  - inversion Hi; inversion Hj; subst. apply Permutation_refl.
  - inversion Hi; subst. now apply list_set_put_perm.
  - inversion Hj; subst. now apply list_set_put_perm.
  - apply perm_skip. now apply IH.
Qed.

Section ShuffleFacts.
Variable tape : nat -> nat.

Lemma shuffle_loop_spec {A} :
  forall (idx : list nat) (x : list A) (s : State),
    Forall (fun i => (i < List.length x)%nat) idx ->
    exists x',
      shuffle_loop tape idx x s
      = Ok x' (mkState (cursor s + List.length idx) (heap s))
      /\ Permutation x' x.
Proof.
  induction idx as [|i idx IH]; intros x s Hidx.
  - exists x. simpl. unfold ret. rewrite Nat.add_0_r. destruct s; auto.
  - inversion Hidx as [|? ? Hi Hrest]; subst.
    cbn [shuffle_loop]. unfold randbelow at 1, draw at 1.
    unfold bind at 1. unfold bind at 1. unfold ret at 1.
    set (j := (tape (cursor s) mod (i + 1))%nat).
    set (s1 := mkState (S (cursor s)) (heap s)).
    assert (Hj : (j < List.length x)%nat).
    { pose proof (Nat.mod_upper_bound (tape (cursor s)) (i + 1) ltac:(lia)).
      fold j in H. lia. }
    destruct (nth_error_lt_Some x i Hi) as [xi Exi].
    destruct (nth_error_lt_Some x j Hj) as [xj Exj].
    rewrite (bind_Ok _ _ _ _ _ (getitem_ok _ _ _ s1 Exi)).
    rewrite (bind_Ok _ _ _ _ _ (getitem_ok _ _ _ s1 Exj)).
    rewrite (bind_Ok _ _ _ _ _ (setitem_ok x i xj s1 Hi)).
    rewrite (bind_Ok _ _ _ _ _
               (setitem_ok (list_set i xj x) j xi s1
                  ltac:(rewrite list_set_length; exact Hj))).
    destruct (IH (list_set j xi (list_set i xj x)) s1) as (x' & Hrun & Hp).
    + rewrite !list_set_length. exact Hrest.
    + exists x'. split.
      * rewrite Hrun. unfold s1. cbn [cursor heap List.length].
        f_equal. f_equal. lia.
      * eapply perm_trans; [exact Hp | now apply list_swap_perm].
Qed.

Lemma shuffle_spec {A} (x : list A) (s : State) :
  exists x',
    shuffle tape x s
    = Ok x' (mkState (cursor s + (List.length x - 1)) (heap s))
    /\ Permutation x' x.
Proof.
  unfold shuffle.
  destruct (shuffle_loop_spec (rev (seq 1 (List.length x - 1))) x s)
    as (x' & Hrun & Hp).
  - apply Forall_forall. intros i Hi. apply in_rev, in_seq in Hi. lia.
  - exists x'. rewrite length_rev, length_seq in Hrun. auto.
Qed.
End ShuffleFacts.

(** ** Chromosome construction and the initial population *)

Lemma gen_chromosome_loop_three (box_list : list Box) (s : State) :
  (3 <= List.length box_list)%nat ->
  gen_chromosome_loop (seq 0 3) box_list [] s = Ok (firstn 3 box_list) s.
Proof.
  destruct box_list as [|a [|b [|c l]]]; simpl; intros H; try lia.
  reflexivity.
Qed.

Lemma NoDup_firstn {A} (n : nat) (l : list A) : NoDup l -> NoDup (firstn n l).
Proof.
  intros H. rewrite <- (firstn_skipn n l) in H.
  now apply NoDup_app_remove_r in H.
Qed.

Lemma incl_firstn {A} (n : nat) (l : list A) : incl (firstn n l) l.
Proof.
  intros x Hx. rewrite <- (firstn_skipn n l). apply in_or_app. now left.
Qed.

Lemma gen_chromosome_three (tape : nat -> nat) (box_list : list Box) (s : State) :
  (3 <= List.length box_list)%nat ->
  exists chrom box_list',
    gen_chromosome tape box_list s
    = Ok (chrom, box_list')
         (mkState (cursor s + (List.length box_list - 1)) (heap s))
    /\ Permutation box_list' box_list
    /\ chrom = firstn 3 box_list'
    /\ List.length chrom = 3%nat
    /\ incl chrom box_list
    /\ (NoDup box_list -> NoDup chrom).
Proof.
  intros Hlen.
  destruct (shuffle_spec tape box_list s) as (bl & Hsh & Hp).
  assert (Hlen' : (3 <= List.length bl)%nat)
    by (rewrite (Permutation_length Hp); exact Hlen).
  exists (firstn 3 bl), bl. split; [|split; [exact Hp|split; [reflexivity|split; [|split]]]].
  - unfold gen_chromosome.
    destruct (Nat.eqb_spec (List.length box_list) 0) as [E|_]; [lia|].
    rewrite (bind_Ok _ _ _ _ _ Hsh).
    rewrite (bind_Ok _ _ _ _ _ (gen_chromosome_loop_three bl _ Hlen')).
    reflexivity.
  - rewrite length_firstn. lia.
  - intros b Hb. eapply Permutation_in; [exact Hp|]. now apply incl_firstn in Hb.
  - intros Hnd. apply NoDup_firstn.
    eapply Permutation_NoDup; [apply Permutation_sym, Hp | exact Hnd].
Qed.

(** X8.  [gen_chromosome] on a catalog of at least three boxes makes
    [len - 1] draws, leaves the catalog list permuted, and returns its first
    three boxes after the shuffle: three boxes of the catalog, pairwise
    distinct when the catalog's are.  The heap is not touched. *)
Theorem gen_chromosome_spec (tape : nat -> nat) (box_list : list Box) (s : State) :
  (3 <= List.length box_list)%nat ->
  exists chrom box_list',
    gen_chromosome tape box_list s
    = Ok (chrom, box_list')
         (mkState (cursor s + (List.length box_list - 1)) (heap s))
    /\ Permutation box_list' box_list
    /\ chrom = firstn 3 box_list'
    /\ List.length chrom = 3%nat
    /\ incl chrom box_list
    /\ (NoDup box_list -> NoDup chrom).
Proof. apply gen_chromosome_three. Qed.

Lemma gen_chromosome_spec_witness :
  exists chrom box_list' s',
    gen_chromosome (fun n => n) the_boxes initial_state = Ok (chrom, box_list') s'
    /\ Permutation box_list' the_boxes /\ List.length chrom = 3%nat.
Proof.
  destruct (gen_chromosome_spec (fun n => n) the_boxes initial_state)
    as (chrom & bl & Hrun & Hp & _ & Hl & _).
  - simpl. lia.
  - exists chrom, bl. eexists. split; [exact Hrun | split; assumption].
Defined.

Lemma consistent_refresh (genes : list Box) :
  consistent
    (set_fitness
       (set_total_value
          (set_total_weight (mkChromosome genes 0 0 0)
             (sum_weight (mkChromosome genes 0 0 0)))
          (sum_value (set_total_weight (mkChromosome genes 0 0 0)
                        (sum_weight (mkChromosome genes 0 0 0)))))
       (calc_fitness
          (set_total_value
             (set_total_weight (mkChromosome genes 0 0 0)
                (sum_weight (mkChromosome genes 0 0 0)))
             (sum_value (set_total_weight (mkChromosome genes 0 0 0)
                           (sum_weight (mkChromosome genes 0 0 0))))))).
Proof. repeat split. Qed.

(** [Chromosome(box_list)] on a catalog of at least three boxes: a new
    object at the end of the heap, with three genes and derived fields in
    agreement with them. *)
Lemma Chromosome_init_spec (tape : nat -> nat) (box_list : list Box) (s : State) :
  (3 <= List.length box_list)%nat ->
  exists c box_list',
    Chromosome_init tape box_list s
    = Ok (List.length (heap s), box_list')
         (mkState (cursor s + (List.length box_list - 1)) (heap s ++ [c]))
    /\ Permutation box_list' box_list
    /\ consistent c
    /\ List.length (boxes c) = 3%nat
    /\ incl (boxes c) box_list
    /\ (NoDup box_list -> NoDup (boxes c)).
Proof.
  intros Hlen.
  destruct (gen_chromosome_three tape box_list s Hlen)
    as (chrom & bl & Hrun & Hp & _ & Hl & Hincl & Hnd).
  eexists. exists bl. split.
  - unfold Chromosome_init. rewrite (bind_Ok _ _ _ _ _ Hrun). cbv zeta.
    unfold alloc, bind, ret. cbn [heap cursor]. reflexivity.
  - split; [exact Hp|]. split; [apply consistent_refresh|].
    cbn [boxes set_fitness set_total_value set_total_weight]. auto.
Qed.

Lemma wf_genes_perm (k : nat) (catalog catalog' genes : list Box) :
  Permutation catalog' catalog ->
  wf_genes k catalog' genes -> wf_genes k catalog genes.
Proof.
  intros Hp (Hnd & Hl & Hincl). repeat split; auto.
  intros b Hb. eapply Permutation_in; [exact Hp | now apply Hincl].
Qed.

Lemma generate_population_loop_spec (tape : nat -> nat) :
  forall (n : nat) (self : Population) (box_list : list Box) (s : State),
    (3 <= List.length box_list)%nat -> NoDup box_list ->
    exists news box_list',
      generate_population_loop tape n self box_list s
      = Ok (mkPopulation (population self ++ seq (List.length (heap s)) n)
                         (size self), box_list')
           (mkState (cursor s + n * (List.length box_list - 1)) (heap s ++ news))
      /\ List.length news = n
      /\ Permutation box_list' box_list
      /\ Forall (fun c => consistent c /\ wf_genes 3 box_list (boxes c)) news.
Proof.
  induction n as [|n IH]; intros self box_list s Hlen Hnd.
  - exists [], box_list. simpl. unfold ret.
    rewrite !app_nil_r, Nat.add_0_r. destruct self, s. auto.
  - destruct (Chromosome_init_spec tape box_list s Hlen)
      as (c & bl1 & Hinit & Hp1 & Hcons & Hl & Hincl & Hnd1).
    cbn [generate_population_loop].
    rewrite (bind_Ok _ _ _ _ _ Hinit). cbv beta iota.
    destruct (IH (mkPopulation (population self ++ [List.length (heap s)]) (size self))
                 bl1 (mkState (cursor s + (List.length box_list - 1)) (heap s ++ [c])))
      as (news & bl' & Hrun & Hn & Hp & Hall).
    + now rewrite (Permutation_length Hp1).
    + eapply Permutation_NoDup; [apply Permutation_sym, Hp1 | exact Hnd].
    + exists (c :: news), bl'. split; [|split; [|split]].
      * eapply eq_trans; [exact Hrun|]. cbn [population size cursor heap].
        rewrite (Permutation_length Hp1), length_app. cbn [List.length seq].
        rewrite <- !app_assoc. cbn [app].
        replace (List.length (heap s) + 1)%nat with (S (List.length (heap s))) by lia.
        f_equal. f_equal. lia.
      * simpl. now rewrite Hn.
      * eapply perm_trans; eassumption.
      * constructor.
        -- split; [exact Hcons|]. repeat split; auto.
        -- eapply Forall_impl; [|exact Hall].
           intros c' [Hc Hw]. split; [exact Hc|].
           eapply wf_genes_perm; eassumption.
Qed.


Lemma the_boxes_NoDup : NoDup the_boxes.
Proof. unfold the_boxes. nodup_boxes. Qed.


(** ** What crossover does to the heap *)

Lemma getitem_inv {A} (l : list A) (i : nat) (v : A) (s s' : State) :
  getitem l i s = Ok v s' -> nth_error l i = Some v /\ s' = s.
Proof.
  unfold getitem. destruct (nth_error l i); [|discriminate].
  unfold ret. intros H. inversion H; auto.
Qed.

Lemma setitem_inv {A} (l l' : list A) (i : nat) (v : A) (s s' : State) :
  setitem l i v s = Ok l' s' ->
  l' = list_set i v l /\ s' = s /\ (i < List.length l)%nat.
Proof.
  unfold setitem. destruct (Nat.ltb_spec i (List.length l)) as [Hlt|Hge];
    [|discriminate].
  unfold ret. intros H. inversion H; auto.
Qed.

Lemma list_remove_inv (b : Box) (l l' : list Box) (s s' : State) :
  list_remove b l s = Ok l' s' -> remove_first b l = Some l' /\ s' = s.
Proof.
  unfold list_remove. destruct (remove_first b l); [|discriminate].
  unfold ret. intros H. inversion H; auto.
Qed.

Lemma list_set_end {A} (h : list A) (e v : A) :
  list_set (List.length h) v (h ++ [e]) = h ++ [v].
Proof. induction h as [|a h IH]; simpl; [reflexivity | now rewrite IH]. Qed.

Section CrossoverEffects.
Variable tape : nat -> nat.

(** The genes appended by the loop: one per position, the box of one of
    the two sorted parents at that position; one draw each. *)
Lemma crossover_loop_inv (temp1 temp2 : list Box) :
  forall (n j : nat) (acc : list Box) (s : State) (genes : list Box) (s' : State),
    crossover_loop tape (seq j n) temp1 temp2 acc s = Ok genes s' ->
    s' = mkState (cursor s + n) (heap s)
    /\ exists picks,
         genes = acc ++ picks
         /\ List.length picks = n
         /\ forall i, (i < n)%nat ->
              nth_error picks i = nth_error temp1 (j + i)
              \/ nth_error picks i = nth_error temp2 (j + i).
Proof.
  induction n as [|n IH]; intros j acc s genes s' H.
  - simpl in H. unfold ret in H. inversion H; subst.
    split; [destruct s'; simpl; f_equal; lia|].
    exists []. rewrite app_nil_r. repeat split. intros i Hi. lia.
  - cbn [seq crossover_loop] in H.
    rewrite (bind_Ok _ _ _ _ _ (randint_ok tape 0 1 s ltac:(lia))) in H.
    set (s1 := mkState (S (cursor s)) (heap s)) in *.
    assert (Hstep : forall g,
               (Some g = nth_error temp1 j \/ Some g = nth_error temp2 j) ->
               crossover_loop tape (seq (S j) n) temp1 temp2 (acc ++ [g]) s1
               = Ok genes s' ->
               s' = mkState (cursor s + S n) (heap s)
               /\ exists picks,
                    genes = acc ++ picks
                    /\ List.length picks = S n
                    /\ forall i, (i < S n)%nat ->
                         nth_error picks i = nth_error temp1 (j + i)
                         \/ nth_error picks i = nth_error temp2 (j + i)).
    { intros g Hg Hrun.
      destruct (IH _ _ _ _ _ Hrun) as (-> & picks & -> & Hl & Hpos).
      split; [unfold s1; cbn [cursor heap]; f_equal; lia|].
      exists (g :: picks). rewrite <- app_assoc. split; [reflexivity|].
      split; [simpl; now rewrite Hl|].
      intros [|i] Hi.
      - rewrite Nat.add_0_r. simpl. destruct Hg as [<-|<-]; auto.
      - simpl. replace (j + S i)%nat with (S j + i)%nat by lia.
        apply Hpos. lia. }
    destruct (_ =? 0).
    + apply bind_inv_Ok in H. destruct H as (t1 & s2 & Hg1 & H).
      apply getitem_inv in Hg1. destruct Hg1 as [E1 ->].
      destruct (contains t1 acc).
      * apply bind_inv_Ok in H. destruct H as (t2 & s2 & Hg2 & H).
        apply getitem_inv in Hg2. destruct Hg2 as [E2 ->].
        apply (Hstep t2); auto.
      * apply (Hstep t1); auto.
    + apply bind_inv_Ok in H. destruct H as (t2 & s2 & Hg2 & H).
      apply getitem_inv in Hg2. destruct Hg2 as [E2 ->].
      destruct (contains t2 acc).
      * apply bind_inv_Ok in H. destruct H as (t1 & s2 & Hg1 & H).
        apply getitem_inv in Hg1. destruct Hg1 as [E1 ->].
        apply (Hstep t1); auto.
      * apply (Hstep t2); auto.
Qed.

Lemma crossover_inv (x y : ref) (s : State) (child : ref) (s' : State) :
  crossover tape x y s = Ok child s' ->
  (dupe_check (deref (heap s) x) (deref (heap s) y) = true
   /\ child = x /\ s' = s)
  \/ (dupe_check (deref (heap s) x) (deref (heap s) y) = false
      /\ child = List.length (heap s)
      /\ exists genes,
           s' = mkState (cursor s + List.length (boxes (deref (heap s) x)))
                        (heap s ++ [mkChromosome genes 0 0 0])
           /\ List.length genes = List.length (boxes (deref (heap s) x))
           /\ forall i, (i < List.length genes)%nat ->
                nth_error genes i
                = nth_error (sorted_by_name (boxes (deref (heap s) x))) i
                \/ nth_error genes i
                   = nth_error (sorted_by_name (boxes (deref (heap s) y))) i).
Proof.
  unfold crossover. intros H.
  rewrite (bind_Ok _ _ s s (deref (heap s) x)) in H by reflexivity.
  rewrite (bind_Ok _ _ s s (deref (heap s) y)) in H by reflexivity.
  destruct (dupe_check _ _).
  - left. unfold ret in H. inversion H; auto.
  - right. split; [reflexivity|].
    rewrite (bind_Ok _ _ _ _ _ (Chromosome_init_empty tape s)) in H.
    cbv beta iota in H.
    set (s1 := mkState (cursor s) (heap s ++ [empty_chromosome])) in *.
    rewrite (bind_Ok _ _ s1 s1 empty_chromosome) in H
      by (unfold load, s1; cbn [heap]; now rewrite deref_new).
    cbn [boxes empty_chromosome] in H.
    apply bind_inv_Ok in H. destruct H as (genes & s2 & Hloop & H).
    apply crossover_loop_inv in Hloop.
    destruct Hloop as (-> & picks & -> & Hl & Hpos).
    unfold store, bind, ret in H. cbn [heap cursor] in H.
    inversion H; subst. split; [reflexivity|].
    exists picks. unfold s1. cbn [cursor heap app set_boxes].
    rewrite list_set_end.
    unfold sorted_by_name in Hl |- *. rewrite sort_by_length in Hl |- *.
    split; [reflexivity|]. split; [exact Hl|].
    intros i Hi. apply (Hpos i).
    unfold sorted_by_name. rewrite sort_by_length. lia.
Qed.

(** X10.  What a returning [crossover] has done.  Parents holding the same
    boxes: the first parent itself is returned, nothing is drawn and the
    heap is as it was.  Otherwise the child is a new object at the end of
    the heap, every object that was there (the parents included) is
    untouched, the gene at each position is the gene of one of the
    name-sorted parents at that position, one draw was made per gene, and
    the child's derived fields are still those of an empty chromosome. *)
Theorem crossover_effect (x y : ref) (s : State) (child : ref) (s' : State) :
  crossover tape x y s = Ok child s' ->
  (dupe_check (deref (heap s) x) (deref (heap s) y) = true
   /\ child = x /\ s' = s)
  \/ (dupe_check (deref (heap s) x) (deref (heap s) y) = false
      /\ child = List.length (heap s)
      /\ exists genes,
           s' = mkState (cursor s + List.length (boxes (deref (heap s) x)))
                        (heap s ++ [mkChromosome genes 0 0 0])
           /\ List.length genes = List.length (boxes (deref (heap s) x))
           /\ forall i, (i < List.length genes)%nat ->
                nth_error genes i
                = nth_error (sorted_by_name (boxes (deref (heap s) x))) i
                \/ nth_error genes i
                   = nth_error (sorted_by_name (boxes (deref (heap s) y))) i).
Proof. apply crossover_inv. Qed.
End CrossoverEffects.

Lemma crossover_effect_witness :
  let s := mkState 0 [mkChromosome [mkBox 0 "a" 20 6; mkBox 1 "b" 30 5; mkBox 2 "c" 60 8] 110 19 19;
                      mkChromosome [mkBox 3 "d" 90 7; mkBox 2 "c" 60 8; mkBox 1 "b" 30 5] 180 20 (-10)] in
  exists genes,
    crossover (fun n => n) 0%nat 1%nat s
    = Ok 2%nat (mkState 3 (heap s ++ [mkChromosome genes 0 0 0])).
Proof.
  intros s.
  destruct (crossover_effect (fun n => n) 0%nat 1%nat s 2%nat
              (mkState 3 (heap s ++ [mkChromosome
                 [mkBox 0 "a" 20 6; mkBox 2 "c" 60 8; mkBox 3 "d" 90 7] 0 0 0])))
    as [(Hd & _)|(_ & _ & genes & Hs & _)].
  - vm_compute. reflexivity.
  - vm_compute in Hd. discriminate Hd.
  - exists [mkBox 0 "a" 20 6; mkBox 2 "c" 60 8; mkBox 3 "d" 90 7].
    vm_compute. reflexivity.
Defined.

(** ** What mutate does to the heap *)

Lemma remove_present_inv :
  forall (genes l l' : list Box) (s s' : State),
    remove_present genes l s = Ok l' s' -> s' = s /\ incl l' l.
Proof.
  induction genes as [|g genes IH]; intros l l' s s' H; simpl in H.
  - unfold ret in H. inversion H; subst. split; [reflexivity | apply incl_refl].
  - destruct (contains g l) eqn:Hc.
    + apply contains_In in Hc.
      destruct (remove_first_In g l Hc) as (l1 & Hrm & _ & Hincl).
      assert (Hlr : list_remove g l s = Ok l1 s)
        by (unfold list_remove; now rewrite Hrm).
      rewrite (bind_Ok _ _ _ _ _ Hlr) in H.
      destruct (IH _ _ _ _ H) as [-> Hi]. split; [reflexivity|].
      eapply incl_tran; eassumption.
    + now apply IH.
Qed.

Section MutateEffects.
Variable tape : nat -> nat.

Lemma choice_inv {A} (l : list A) (s s' : State) (y : A) :
  choice tape l s = Ok y s' ->
  In y l /\ s' = mkState (S (cursor s)) (heap s).
Proof.
  rewrite choice_pick. destruct (pick tape (cursor s) l) as [y0|] eqn:E;
    [|discriminate].
  intros H. inversion H; subst. split; [eapply pick_In; eauto | reflexivity].
Qed.

Lemma mutate_loop_inv (probability : Q) :
  forall (n j : nat) (genes pool : list Box) (s : State)
         (genes' : list Box) (s' : State),
    mutate_loop tape probability (seq j n) genes pool s = Ok genes' s' ->
    heap s' = heap s
    /\ (cursor s + n <= cursor s' <= cursor s + 2 * n)%nat
    /\ List.length genes' = List.length genes
    /\ forall i, nth_error genes' i = nth_error genes i
                 \/ exists b, nth_error genes' i = Some b /\ In b pool.
Proof.
  induction n as [|n IH]; intros j genes pool s genes' s' H.
  - simpl in H. unfold ret in H. inversion H; subst.
    repeat split; auto; lia.
  - cbn [seq mutate_loop] in H.
    rewrite (bind_Ok _ _ _ _ _ (mutant_prob_ok tape probability s)) in H.
    set (s1 := mkState (S (cursor s)) (heap s)) in *.
    destruct (Qle_bool _ _).
    + apply bind_inv_Ok in H. destruct H as (b & s2 & Hch & H).
      apply choice_inv in Hch. destruct Hch as [Hin ->].
      apply bind_inv_Ok in H. destruct H as (g1 & s3 & Hset & H).
      apply setitem_inv in Hset. destruct Hset as (-> & -> & Hj).
      apply bind_inv_Ok in H. destruct H as (bj & s3 & Hget & H).
      apply getitem_inv in Hget. destruct Hget as [Hbj ->].
      rewrite nth_error_list_set_eq in Hbj by exact Hj.
      inversion Hbj; subst bj.
      apply bind_inv_Ok in H. destruct H as (pool1 & s3 & Hrm & H).
      apply list_remove_inv in Hrm. destruct Hrm as [Hrm ->].
      destruct (remove_first_In b pool Hin) as (pool1' & Hrm' & _ & Hincl).
      rewrite Hrm in Hrm'. inversion Hrm'; subst pool1'.
      destruct (IH _ _ _ _ _ _ H) as (Hh & Hc & Hl & Hpos).
      unfold s1 in *. cbn [cursor heap] in *.
      split; [exact Hh|]. split; [lia|].
      split; [now rewrite Hl, list_set_length|].
      intros i. destruct (Hpos i) as [Hi|(b' & Hi & Hb')].
      * destruct (Nat.eq_dec j i) as [<-|Hji].
        -- right. exists b. split; [|exact Hin].
           now rewrite Hi, nth_error_list_set_eq.
        -- left. now rewrite Hi, nth_error_list_set_neq.
      * right. exists b'. split; [exact Hi | now apply Hincl].
    + destruct (IH _ _ _ _ _ _ H) as (Hh & Hc & Hl & Hpos).
      unfold s1 in *. cbn [cursor heap] in *.
      repeat split; auto; lia.
Qed.

Lemma mutate_inv (baby : ref) (probability : Q) (box_list : list Box)
        (s : State) (child : ref) (s' : State) :
  mutate tape baby probability box_list s = Ok child s' ->
  child = baby
  /\ List.length (heap s') = List.length (heap s)
  /\ (forall r, r <> baby -> deref (heap s') r = deref (heap s) r)
  /\ total_weight (deref (heap s') baby) = total_weight (deref (heap s) baby)
  /\ total_value (deref (heap s') baby) = total_value (deref (heap s) baby)
  /\ fitness (deref (heap s') baby) = fitness (deref (heap s) baby)
  /\ List.length (boxes (deref (heap s') baby))
     = List.length (boxes (deref (heap s) baby))
  /\ (forall i,
        nth_error (boxes (deref (heap s') baby)) i
        = nth_error (boxes (deref (heap s) baby)) i
        \/ exists b, nth_error (boxes (deref (heap s') baby)) i = Some b
                     /\ In b box_list)
  /\ (cursor s + List.length (boxes (deref (heap s) baby)) <= cursor s'
      <= cursor s + 2 * List.length (boxes (deref (heap s) baby)))%nat.
Proof.
  unfold mutate. intros H.
  rewrite (bind_Ok _ _ s s (deref (heap s) baby)) in H by reflexivity.
  set (self := deref (heap s) baby) in *.
  apply bind_inv_Ok in H. destruct H as (pool & s1 & Hrp & H).
  apply remove_present_inv in Hrp. destruct Hrp as [-> Hpool].
  apply bind_inv_Ok in H. destruct H as (genes & s2 & Hloop & H).
  apply mutate_loop_inv in Hloop. destruct Hloop as (Hh & Hc & Hl & Hpos).
  unfold store, bind, ret in H. inversion H; subst. cbn [heap cursor].
  rewrite Hh.
  split; [reflexivity|]. split; [apply list_set_length|].
  split; [intros r Hr; now apply deref_list_set_neq|].
  destruct (Nat.lt_ge_cases child (List.length (heap s))) as [Hlive|Hdead].
  - rewrite deref_list_set_eq by exact Hlive. cbn [set_boxes boxes total_weight total_value fitness].
    repeat split; auto; try lia.
    intros i. destruct (Hpos i) as [Hi|(b & Hi & Hb)]; [now left|].
    right. exists b. split; [exact Hi | now apply Hpool].
  - assert (Hd : deref (list_set child (set_boxes self genes) (heap s)) child = self).
    { unfold self, deref. rewrite !nth_overflow; try reflexivity;
        rewrite ?list_set_length; lia. }
    rewrite Hd. repeat split; auto; lia.
Qed.

(** X11.  What a returning [mutate] has done: it returns the chromosome it
    was given, changed in place.  The number of genes is the same, each gene
    is the one that was there or a box of the catalog, between one and two
    draws were made per gene, the fields [total_weight], [total_value] and
    [fitness] are what they were before the genes changed, and no other
    object of the heap is touched. *)
Theorem mutate_effect (baby : ref) (probability : Q) (box_list : list Box)
        (s : State) (child : ref) (s' : State) :
  mutate tape baby probability box_list s = Ok child s' ->
  child = baby
  /\ List.length (heap s') = List.length (heap s)
  /\ (forall r, r <> baby -> deref (heap s') r = deref (heap s) r)
  /\ total_weight (deref (heap s') baby) = total_weight (deref (heap s) baby)
  /\ total_value (deref (heap s') baby) = total_value (deref (heap s) baby)
  /\ fitness (deref (heap s') baby) = fitness (deref (heap s) baby)
  /\ List.length (boxes (deref (heap s') baby))
     = List.length (boxes (deref (heap s) baby))
  /\ (forall i,
        nth_error (boxes (deref (heap s') baby)) i
        = nth_error (boxes (deref (heap s) baby)) i
        \/ exists b, nth_error (boxes (deref (heap s') baby)) i = Some b
                     /\ In b box_list)
  /\ (cursor s + List.length (boxes (deref (heap s) baby)) <= cursor s'
      <= cursor s + 2 * List.length (boxes (deref (heap s) baby)))%nat.
Proof. apply mutate_inv. Qed.
End MutateEffects.

Lemma mutate_effect_witness :
  let s := mkState 0 [mkChromosome [mkBox 0 "a" 20 6; mkBox 1 "b" 30 5; mkBox 5 "f" 70 9]
                                   120 20 22] in
  exists s',
    mutate (fun _ => 0%nat) 0%nat MUTANT_PROB the_boxes s = Ok 0%nat s'
    /\ fitness (deref (heap s') 0%nat) = 22
    /\ calc_fitness (deref (heap s') 0%nat) = -19.
Proof.
  intros s.
  destruct (mutate (fun _ => 0%nat) 0%nat MUTANT_PROB the_boxes s)
    as [child s'|e] eqn:E; [|vm_compute in E; discriminate E].
  destruct (mutate_effect _ _ _ _ _ _ _ E) as (-> & _ & _ & _ & _ & Hf & _).
  exists s'. split; [reflexivity|]. split; [exact Hf|].
  vm_compute in E. inversion E as [Hs']. reflexivity.
Defined.

Lemma mutate_loop_pool_exhausted (tape : nat -> nat) :
  forall (n j : nat) (genes pool : list Box) (s : State),
    (j + n = List.length genes)%nat -> (List.length pool < n)%nat ->
    mutate_loop tape 1 (seq j n) genes pool s = Raise IndexError.
Proof.
  induction n as [|n IH]; intros j genes pool s Hj Hn; [lia|].
  cbn [seq mutate_loop].
  rewrite (bind_Ok _ _ _ _ _ (mutant_prob_ok tape 1 s)).
  rewrite mutant_prob_one_decides.
  set (s1 := mkState (S (cursor s)) (heap s)).
  destruct pool as [|d0 pool0] eqn:Epool; [reflexivity|].
  rewrite <- Epool in *.
  assert (Hne : pool <> []) by (rewrite Epool; discriminate).
  destruct (choice_ok tape pool d0 s1 Hne) as [Hch Hin].
  set (b := nth (tape (cursor s1) mod List.length pool) pool d0) in *.
  rewrite (bind_Ok _ _ _ _ _ Hch).
  set (s2 := mkState (S (cursor s1)) (heap s1)).
  rewrite (bind_Ok _ _ _ _ _ (setitem_ok genes j b s2 ltac:(lia))).
  rewrite (bind_Ok _ _ _ _ _
             (getitem_ok _ j b s2 (nth_error_list_set_eq j b genes ltac:(lia)))).
  destruct (remove_first_In b pool Hin) as (pool1 & Hrm & Hlen & _).
  assert (Hlr : list_remove b pool s2 = Ok pool1 s2)
    by (unfold list_remove; now rewrite Hrm).
  rewrite (bind_Ok _ _ _ _ _ Hlr).
  apply IH; [rewrite list_set_length; lia | lia].
Qed.

(** X12.  [mutate] has no guard on the pool: called with probability 1 on
    a chromosome that has more genes than the catalog has boxes outside of
    it, it raises [IndexError] ([random.choice] on the emptied pool). *)
Theorem mutate_exhausted_pool_raises
        (tape : nat -> nat) (baby : ref) (box_list : list Box) (s : State) :
  NoDup box_list ->
  (List.length (available (boxes (deref (heap s) baby)) box_list)
   < List.length (boxes (deref (heap s) baby)))%nat ->
  mutate tape baby 1 box_list s = Raise IndexError.
Proof.
  intros Hnd Hpool. unfold mutate.
  rewrite (bind_Ok _ _ s s (deref (heap s) baby)) by reflexivity.
  rewrite (bind_Ok _ _ _ _ _ (remove_present_available _ _ s Hnd)).
  apply bind_Raise. now apply mutate_loop_pool_exhausted.
Qed.

Lemma mutate_exhausted_pool_raises_witness :
  mutate (fun n => n) 0%nat 1
         [mkBox 0 "a" 20 6; mkBox 1 "b" 30 5; mkBox 2 "c" 60 8; mkBox 3 "d" 90 7]
         (mkState 0 [mkChromosome [mkBox 0 "a" 20 6; mkBox 1 "b" 30 5; mkBox 2 "c" 60 8]
                                  110 19 19])
  = Raise IndexError.
Proof.
  apply mutate_exhausted_pool_raises.
  - nodup_boxes.
  - simpl. lia.
Defined.

(** ** Invariants of the heap *)

Lemma objs_app_one (P : Chromosome -> Prop) (h : list Chromosome) (c : Chromosome) :
  objs P h -> P c -> objs P (h ++ [c]).
Proof.
  intros Hh Hc r Hr. rewrite length_app in Hr. simpl in Hr.
  destruct (Nat.eq_dec r (List.length h)) as [->|Hne].
  - now rewrite deref_new.
  - rewrite deref_old by lia. apply Hh. lia.
Qed.

Lemma objs_list_set (P : Chromosome -> Prop) (h : list Chromosome)
      (i : ref) (c : Chromosome) :
  (forall r, (r < List.length h)%nat -> r <> i -> P (deref h r)) ->
  P c -> objs P (list_set i c h).
Proof.
  intros Hh Hc r Hr. rewrite list_set_length in Hr.
  destruct (Nat.eq_dec i r) as [->|Hne].
  - now rewrite deref_list_set_eq.
  - rewrite deref_list_set_neq by exact Hne. apply Hh; [exact Hr | congruence].
Qed.

Lemma available_length (genes catalog : list Box) :
  NoDup genes -> NoDup catalog -> incl genes catalog ->
  (List.length (available genes catalog) + List.length genes
   = List.length catalog)%nat.
Proof.
  intros Hg Hc Hincl.
  assert (Hp : Permutation (genes ++ available genes catalog) catalog).
  { apply NoDup_Permutation; [|exact Hc|].
    - apply NoDup_app; [exact Hg | now apply NoDup_filter |].
      intros x Hx Hx'. apply available_In in Hx'. tauto.
    - intros x. rewrite in_app_iff, available_In. split.
      + intros [H|[H _]]; [now apply Hincl | exact H].
      + intros H. destruct (contains x genes) eqn:E.
        * left. now apply contains_In.
        * right. split; [exact H | now apply contains_not_In]. }
  apply Permutation_length in Hp. rewrite length_app in Hp. lia.
Qed.

Lemma consistent_refreshed (self : Chromosome) :
  consistent
    (set_total_value
       (set_total_weight (set_fitness self (calc_fitness self))
          (sum_weight (set_fitness self (calc_fitness self))))
       (sum_value (set_total_weight (set_fitness self (calc_fitness self))
                     (sum_weight (set_fitness self (calc_fitness self)))))).
Proof. repeat split. Qed.

Section BreedingInvariants.
Variable tape : nat -> nat.
Variable k : nat.
Variable catalog : list Box.
Hypothesis catalog_ok : wf_catalog k catalog.

Let wf (c : Chromosome) : Prop := wf_genes k catalog (boxes c).

Lemma crossover_ok (x y : ref) (s : State) :
  objs wf (heap s) ->
  (x < List.length (heap s))%nat -> (y < List.length (heap s))%nat ->
  okM (fun child s' =>
         (child < List.length (heap s'))%nat
         /\ (List.length (heap s) <= List.length (heap s'))%nat
         /\ objs wf (heap s')
         /\ (forall r, (r < List.length (heap s'))%nat -> r <> child ->
               (r < List.length (heap s))%nat
               /\ deref (heap s') r = deref (heap s) r))
      (crossover tape x y s).
Proof.
  intros Hwf Hx Hy.
  destruct catalog_ok as (Hcnd & Hnames & Hsize).
  destruct (Hwf x Hx) as (Hxn & Hxl & Hxi).
  destruct (Hwf y Hy) as (Hyn & Hyl & Hyi).
  destruct (crossover_child_distinct tape x y s Hxn Hyn) as
      (child & s' & Hrun & Hnd & Hl & Hsub).
  { eapply distinct_names_incl; [|exact Hnames].
    intros b Hb. apply in_app_or in Hb. destruct Hb; auto. }
  { congruence. }
  rewrite Hrun. simpl.
  destruct (crossover_inv tape _ _ _ _ _ Hrun)
    as [(_ & -> & ->)|(_ & -> & genes & -> & _)].
  - split; [exact Hx|]. split; [lia|]. split; [exact Hwf|].
    intros r Hr Hne. split; [exact Hr | reflexivity].
  - cbn [heap] in *. rewrite length_app. simpl.
    rewrite deref_new in Hnd, Hl, Hsub. cbn [boxes] in Hnd, Hl, Hsub.
    split; [lia|]. split; [lia|]. split.
    + apply objs_app_one; [exact Hwf|].
      unfold wf. cbn [boxes]. repeat split; auto; [congruence|].
      intros b Hb. destruct (Hsub b Hb); auto.
    + intros r Hr Hne. split; [lia|]. apply deref_old. lia.
Qed.

Lemma mutate_ok (baby : ref) (probability : Q) (s : State) :
  objs wf (heap s) -> (baby < List.length (heap s))%nat ->
  okM (fun child s' =>
         child = baby
         /\ List.length (heap s') = List.length (heap s)
         /\ objs wf (heap s')
         /\ (forall r, r <> baby -> deref (heap s') r = deref (heap s) r))
      (mutate tape baby probability catalog s).
Proof.
  intros Hwf Hlive.
  destruct catalog_ok as (Hcnd & Hnames & Hsize).
  destruct (Hwf baby Hlive) as (Hn & Hl & Hi).
  pose proof (available_length _ _ Hn Hcnd Hi) as Hav.
  assert (Hpool : (List.length (boxes (deref (heap s) baby))
                   <= List.length (available (boxes (deref (heap s) baby)) catalog))%nat)
    by lia.
  destruct (mutate_loop_spec tape probability
              (List.length (boxes (deref (heap s) baby))) 0
              (boxes (deref (heap s) baby))
              (available (boxes (deref (heap s) baby)) catalog) s)
    as (g' & s1 & Hrun & Hh & Hlen & Hnd & Hpos); auto.
  { now apply NoDup_filter. }
  { intros b Hb. now apply available_In in Hb. }
  destruct (mutate_unfold tape baby catalog s Hlive Hcnd probability g' s1 Hrun Hh)
    as [Hm Hb].
  rewrite Hm. simpl. rewrite Hh.
  split; [reflexivity|]. split; [apply list_set_length|]. split.
  - apply objs_list_set; [intros r Hr _; now apply Hwf|].
    unfold wf. cbn [set_boxes boxes]. repeat split; auto; [congruence|].
    intros b Hin. apply In_nth_error in Hin. destruct Hin as [i Hi'].
    destruct (Hpos i) as [Hold|(b' & Hnew & Hb')].
    + apply Hi. eapply nth_error_In. rewrite <- Hold. exact Hi'.
    + rewrite Hi' in Hnew. inversion Hnew; subst.
      now apply available_In in Hb'.
  - intros r Hr. now apply deref_list_set_neq.
Qed.
End BreedingInvariants.

Section EvolutionInvariants.
Variable tape : nat -> nat.
Variable k : nat.
Variable catalog : list Box.
Hypothesis catalog_ok : wf_catalog k catalog.

Lemma choice_okM {A} (l : list A) (s : State) :
  l <> [] ->
  okM (fun y s' => In y l /\ heap s' = heap s) (choice tape l s).
Proof.
  intros Hl. destruct l as [|d l0] eqn:E; [congruence|]. rewrite <- E in *.
  destruct (choice_ok tape l d s Hl) as [-> Hin]. simpl. auto.
Qed.

Lemma redraw_okF (c : nat) (pop : list ref) (x : ref) :
  pop <> [] ->
  forall (fuel : nat) (y : ref) (s : State),
    In y pop ->
    okF (fun y' s' => In y' pop /\ y' <> x /\ heap s' = heap s)
        (redraw tape fuel c pop x y s).
Proof.
  intros Hpop. induction fuel as [|fuel IH]; intros y s Hy; simpl.
  - destruct (Nat.eqb_spec x y); simpl; auto.
  - destruct (Nat.eqb_spec x y); simpl; auto.
    pose proof (choice_okM pop s Hpop) as Hc.
    destruct (choice tape pop s) as [y1 s1|err]; simpl in Hc; [|contradiction].
    destruct Hc as [Hin Hh]. rewrite <- Hh. now apply IH.
Qed.

(** One child bred from a population of live, well-formed chromosomes:
    [breed] does not raise, the child is live and the heap is in good order
    again, whether the child is a new object or a parent changed in place. *)
Lemma breed_ok (pop : Population) (fuel : nat) (s : State) :
  well_formed k catalog s ->
  live (heap s) (population pop) -> population pop <> [] ->
  okF (fun child s' =>
         (child < List.length (heap s'))%nat
         /\ (List.length (heap s) <= List.length (heap s'))%nat
         /\ well_formed k catalog s')
      (breed tape pop catalog fuel s).
Proof.
  intros [Hwf Hcons] Hlive Hpop. unfold breed.
  eapply okF_bindF; [apply okF_lift, choice_okM, Hpop|].
  intros x s1 [Hx Hh1]. cbv beta.
  eapply okF_bindF; [apply okF_lift, choice_okM, Hpop|].
  intros y s2 [Hy Hh2]. cbv beta.
  eapply okF_bindF; [unfold redraw_loop; apply redraw_okF; [exact Hpop | exact Hy]|].
  intros y' s3 (Hy' & _ & Hh3). cbv beta.
  assert (Hh : heap s3 = heap s) by congruence.
  apply okF_lift.
  eapply okM_bind.
  { apply (crossover_ok tape k catalog catalog_ok x y' s3);
      rewrite Hh; auto. }
  intros c1 s4 (Hc1 & Hlen4 & Hwf4 & Hframe4). cbv beta.
  eapply okM_bind.
  { apply (mutate_ok tape k catalog catalog_ok c1 MUTANT_PROB s4 Hwf4 Hc1). }
  intros c2 s5 (-> & Hlen5 & Hwf5 & Hframe5). cbv beta.
  unfold bind, load, store, ret. cbn [okM heap cursor].
  rewrite list_set_length.
  split; [lia|]. split; [rewrite <- Hh; lia|]. split.
  - apply objs_list_set; [intros r Hr _; now apply Hwf5|].
    cbn [boxes set_total_value set_total_weight set_fitness].
    apply Hwf5. lia.
  - apply objs_list_set; [|apply consistent_refreshed].
    intros r Hr Hne. rewrite Hframe5 by exact Hne.
    destruct (Hframe4 r ltac:(lia) Hne) as [Hr3 ->].
    rewrite Hh in Hr3 |- *. now apply Hcons.
Qed.

Lemma live_grow (h h' : list Chromosome) (l : list ref) :
  (List.length h <= List.length h')%nat -> live h l -> live h' l.
Proof. intros Hle Hl r Hr. specialize (Hl r Hr). lia. Qed.

Lemma build_nextgen_ok (pop : Population) (fuel : nat) :
  forall (n : nat) (nextgen : Population) (s : State),
    well_formed k catalog s ->
    live (heap s) (population pop) -> population pop <> [] ->
    live (heap s) (population nextgen) ->
    okF (fun nextgen' s' =>
           well_formed k catalog s'
           /\ (List.length (heap s) <= List.length (heap s'))%nat
           /\ live (heap s') (population nextgen')
           /\ List.length (population nextgen')
              = (List.length (population nextgen) + n)%nat
           /\ size nextgen' = size nextgen)
        (build_nextgen tape n pop catalog nextgen fuel s).
Proof.
  induction n as [|n IH]; intros nextgen s Hinv Hlive Hpop Hng.
  - simpl. unfold retF. simpl. repeat split; auto; try apply Hinv; lia.
  - cbn [build_nextgen].
    eapply okF_bindF; [apply breed_ok; eassumption|].
    intros child s1 (Hchild & Hlen & Hinv1). cbv beta.
    eapply okF_weaken; [|apply IH].
    + intros ng' s' (H1 & H2 & H3 & H4 & H5). cbn [population size] in *.
      split; [exact H1|]. split; [lia|]. split; [exact H3|].
      split; [rewrite H4, length_app; simpl; lia | exact H5].
    + exact Hinv1.
    + eapply live_grow; eassumption.
    + exact Hpop.
    + cbn [population]. intros r Hr. apply in_app_or in Hr.
      destruct Hr as [Hr|[<-|[]]]; [|exact Hchild].
      specialize (Hng r Hr). lia.
Qed.
End EvolutionInvariants.

Section RunInvariants.
Variable tape : nat -> nat.
Variable k : nat.
Variable catalog : list Box.
Hypothesis catalog_ok : wf_catalog k catalog.

Lemma cull_members (p : Population) (s : State) :
  exists kept,
    cull p s = Ok (mkPopulation kept (Z.of_nat (List.length (population p) / 2))) s
    /\ List.length kept = (List.length (population p) / 2)%nat
    /\ incl kept (population p).
Proof.
  set (L := sort_by (fitness_ge (heap s)) (population p)).
  assert (HL : List.length L = List.length (population p)) by apply sort_by_length.
  exists (firstn (List.length (population p) / 2) L). split; [|split].
  - unfold cull, bind, get_fittest, ret. cbn [population size]. fold L.
    rewrite half_length_div2, HL, Nat2Z.id. reflexivity.
  - rewrite length_firstn, HL. apply Nat.min_l.
    apply Nat.Div0.div_le_upper_bound. lia.
  - intros r Hr. apply incl_firstn in Hr.
    eapply Permutation_in; [apply sort_by_perm | exact Hr].
Qed.

Lemma generations_ok (fuel : nat) :
  forall (n : nat) (pop nextgen : Population) (s : State),
    well_formed k catalog s ->
    live (heap s) (population pop) -> population pop <> [] ->
    population nextgen = [] -> (2 <= Z.to_nat (size nextgen))%nat ->
    okF (run_post k catalog (Z.to_nat (size nextgen)) n pop)
        (generations tape n pop catalog nextgen fuel s).
Proof.
  induction n as [|n IH]; intros pop nextgen s Hinv Hlive Hpop Hng HN.
  - simpl. unfold retF, run_post. simpl. auto.
  - cbn [generations].
    set (N := Z.to_nat (size nextgen)) in *.
    eapply okF_bindF.
    { apply (build_nextgen_ok tape k catalog catalog_ok pop fuel N nextgen s);
        auto. rewrite Hng. intros r []. }
    intros ng1 s1 (Hinv1 & Hlen1 & Hlive1 & Hcount1 & Hsize1). cbv beta.
    rewrite Hng in Hcount1. simpl in Hcount1.
    assert (Hne1 : population ng1 <> [])
      by (intros E; rewrite E in Hcount1; simpl in Hcount1; lia).
    destruct (proj2 (return_fittest_cases ng1 s1) Hne1)
      as (f & ng2 & Hret & Hf & _ & Hperm & _ & Hsize2).
    unfold bindF at 1, lift at 1. rewrite Hret.
    unfold bindF at 1, lift at 1, load.
    assert (Hflive : (f < List.length (heap s1))%nat) by now apply Hlive1.
    destruct (Z.eqb_spec (fitness (deref (heap s1) f)) MAX_SCORE) as [Hfit|Hfit].
    + unfold bindF, lift, retF.
      rewrite (return_fittest_again _ _ _ _ Hret). simpl.
      split; [exact Hinv1|].
      destruct Hinv1 as [Hwf1 Hcons1].
      split; [exact Hflive|]. split; [exact Hfit|].
      split; [rewrite <- (proj1 (Hcons1 f Hflive)); exact Hfit|].
      split; [exact (Hwf1 f Hflive)|].
      rewrite <- (Permutation_length Hperm). exact Hcount1.
    + destruct (cull_members (mkPopulation (population ng2) (size pop)) s1)
        as (kept & Hcull & Hklen & Hkincl).
      cbn [population] in Hcull, Hklen, Hkincl.
      rewrite <- (Permutation_length Hperm), Hcount1 in Hcull, Hklen.
      unfold bindF at 1, lift at 1. rewrite Hcull.
      assert (Hkept : kept <> []).
      { intros E. rewrite E in Hklen. cbn [List.length] in Hklen.
        assert (1 <= N / 2)%nat by (apply Nat.div_le_lower_bound; lia). lia. }
      eapply okF_weaken; [|apply IH].
      * intros [[best pop'] ng'] s' [Hinv' Hres]. cbn [size] in *.
        rewrite Hsize2, Hsize1 in Hres. fold N in Hres.
        split; [exact Hinv'|].
        destruct best as [b|]; [exact Hres|].
        destruct Hres as [Hempty [[-> ->]|Hrest]].
        -- split; [exact Hempty|]. right. cbn [population size].
           split; [lia|]. split; [exact Hklen | reflexivity].
        -- split; [exact Hempty|]. right.
           destruct Hrest as (_ & H1 & H2). split; [lia|]. split; assumption.
      * exact Hinv1.
      * cbn [population]. intros r Hr. apply Hlive1.
        eapply Permutation_in; [apply Permutation_sym, Hperm | now apply Hkincl].
      * cbn [population]. exact Hkept.
      * reflexivity.
      * cbn [size]. rewrite Hsize2, Hsize1. exact HN.
Qed.
End RunInvariants.

(** ** genetic_algo on well-formed input *)


Lemma the_boxes_names : distinct_names the_boxes.
Proof. unfold the_boxes. distinct_names_boxes. Qed.

Lemma the_boxes_catalog : wf_catalog 3 the_boxes.
Proof.
  split; [exact the_boxes_NoDup|]. split; [exact the_boxes_names|].
  simpl. lia.
Qed.


(** X14.  Two configurations on which [genetic_algo] raises [IndexError]
    at once: a [size] of zero or less, where the first buffer stays empty and
    [return_fittest] reads its member 0, and a population without members
    with a positive [size], where [random.choice] has nothing to choose
    from. *)
Theorem genetic_algo_degenerate_raises
        (tape : nat -> nat) (pop : Population) (box_list : list Box)
        (fuel : nat) (s : State) :
  size pop <= 0 \/ population pop = [] ->
  genetic_algo tape pop box_list fuel s = Done (Raise IndexError).
Proof.
  intros H. unfold genetic_algo. cbn [generations Population_init size population].
  destruct (Z.to_nat (size pop)) as [|n] eqn:E.
  - reflexivity.
  - destruct H as [H|H]; [lia|].
    cbn [build_nextgen]. unfold breed. unfold bindF, lift.
    rewrite H. reflexivity.
Qed.

Lemma genetic_algo_degenerate_raises_witness :
  genetic_algo (fun n => n) (Population_init 0) the_boxes 0%nat initial_state
  = Done (Raise IndexError).
Proof.
  apply genetic_algo_degenerate_raises. left. simpl. lia.
Defined.

(** ** The script, end to end *)

Lemma genetic_algo_ok (tape : nat -> nat) (k : nat) (catalog : list Box)
      (pop : Population) (fuel : nat) (s : State) :
  wf_catalog k catalog -> well_formed k catalog s ->
  live (heap s) (population pop) -> population pop <> [] -> 2 <= size pop ->
  okF (run_post k catalog (Z.to_nat (size pop)) 5 pop)
      (genetic_algo tape pop catalog fuel s).
Proof.
  intros Hcat Hinv Hlive Hpop Hsize.
  apply (generations_ok tape k catalog Hcat fuel 5 pop
           (Population_init (size pop)) s Hinv Hlive Hpop eq_refl).
  cbn [Population_init size]. lia.
Qed.

Ltac perm3 :=
  first [ apply Permutation_refl
        | apply perm_swap
        | apply perm_skip, perm_swap
        | eapply perm_trans; [apply perm_swap | apply perm_skip, perm_swap]
        | eapply perm_trans; [apply perm_skip, perm_swap | apply perm_swap]
        | eapply perm_trans;
          [apply perm_swap
          | eapply perm_trans; [apply perm_skip, perm_swap | apply perm_swap]] ].

(** Among the chromosomes of three distinct boxes of the driver's catalog
    only (a, b, f), in any order, has fitness 22. *)
Lemma fitness_22_genes (genes : list Box) :
  wf_genes 3 the_boxes genes ->
  calc_fitness (mkChromosome genes 0 0 0) = 22 ->
  Permutation genes [mkBox 0 "a" 20 6; mkBox 1 "b" 30 5; mkBox 5 "f" 70 9].
Proof.
  intros (Hnd & Hlen & Hincl) Hfit.
  destruct genes as [|g1 [|g2 [|g3 [|g4 genes]]]]; try discriminate Hlen.
  assert (H1 : In g1 the_boxes) by (apply Hincl; simpl; auto).
  assert (H2 : In g2 the_boxes) by (apply Hincl; simpl; auto).
  assert (H3 : In g3 the_boxes) by (apply Hincl; simpl; auto).
  assert (N12 : g1 <> g2)
    by (intros ->; inversion Hnd as [|? ? Hn _]; apply Hn; simpl; auto).
  assert (N13 : g1 <> g3)
    by (intros ->; inversion Hnd as [|? ? Hn _]; apply Hn; simpl; auto).
  assert (N23 : g2 <> g3)
    by (intros ->; inversion Hnd as [|? ? _ Hn']; inversion Hn' as [|? ? Hn _];
        apply Hn; simpl; auto).
  clear Hnd Hlen Hincl.
  unfold the_boxes in H1, H2, H3. simpl in H1, H2, H3.
  repeat (destruct H1 as [<-|H1]; [|]); try contradiction;
    repeat (destruct H2 as [<-|H2]; [|]); try contradiction;
      try (exfalso; apply N12; reflexivity);
      repeat (destruct H3 as [<-|H3]; [|]); try contradiction;
        try (exfalso; apply N13; reflexivity);
        try (exfalso; apply N23; reflexivity);
        try (vm_compute in Hfit; discriminate Hfit);
        perm3.
Qed.

Lemma objs_Forall (P : Chromosome -> Prop) (h : list Chromosome) :
  Forall P h -> objs P h.
Proof.
  intros H r Hr. rewrite Forall_forall in H. apply H.
  unfold deref. now apply nth_In.
Qed.

Lemma wf_catalog_perm (k : nat) (catalog catalog' : list Box) :
  Permutation catalog' catalog -> wf_catalog k catalog -> wf_catalog k catalog'.
Proof.
  intros Hp (Hnd & Hnames & Hlen). split; [|split].
  - eapply Permutation_NoDup; [apply Permutation_sym, Hp | exact Hnd].
  - eapply distinct_names_incl; [|exact Hnames].
    intros b Hb. eapply Permutation_in; eassumption.
  - now rewrite (Permutation_length Hp).
Qed.

(** The run of the reference configuration, whatever the draws and the
    fuel: the initial population is in good order, so [genetic_algo] is run
    on well-formed input. *)
Lemma driver_ok (tape : nat -> nat) (fuel : nat) :
  okF (fun r s' =>
         exists box_list',
           Permutation box_list' the_boxes
           /\ run_post 3 box_list' 35 5 (mkPopulation (seq 0 35) 35) r s')
      (driver tape fuel initial_state).
Proof.
  destruct (generate_population_loop_spec tape 35 (Population_init POP_SIZE)
              the_boxes initial_state ltac:(simpl; lia) the_boxes_NoDup)
    as (news & bl & Hrun & Hn & Hp & Hall).
  unfold driver. unfold bindF at 1, lift at 1, generate_population.
  change (Z.to_nat (size (Population_init POP_SIZE))) with 35%nat.
  rewrite Hrun.
  cbn [Population_init size population app heap initial_state List.length] in *.
  eapply okF_weaken; [|apply (genetic_algo_ok tape 3 bl)].
  - intros r s' H. exists bl. split; [exact Hp | exact H].
  - eapply wf_catalog_perm; [exact Hp | exact the_boxes_catalog].
  - split; apply objs_Forall; cbn [heap];
      (eapply Forall_impl; [|exact Hall]); intros c [Hc Hw]; [|exact Hc].
    eapply wf_genes_perm; [apply Permutation_sym, Hp | exact Hw].
  - intros r Hr. cbn [population heap] in *. apply in_seq in Hr. lia.
  - discriminate.
  - cbn [size]. unfold POP_SIZE. lia.
Qed.

(** X15.  The script, end to end, for every sequence of draws: it never
    ends in an exception of [genetic_algo] or of the construction of the
    population.  Either it prints the winner, and then the winner is the
    chromosome (a, b, f) in some order, with value 20, fitness 22 and weight
    120, or [genetic_algo] has returned [None] after its five generations
    and the script ends in the [AttributeError] of [best.total_value]. *)
Theorem script_outcomes (tape : nat -> nat) (fuel : nat) (r : ScriptEnd) :
  script tape fuel = Some r ->
  r = AttributeError
  \/ exists lines,
       r = Printed 20 22 120 lines
       /\ Permutation lines [("a"%string, 20, 6); ("b"%string, 30, 5);
                             ("f"%string, 70, 9)].
Proof.
  unfold script. pose proof (driver_ok tape fuel) as Hok.
  destruct (driver tape fuel initial_state)
    as [[[[best pop'] ng'] s'|e]|c m x]; simpl in Hok;
    [|contradiction|discriminate].
  destruct Hok as (bl & Hp & [Hwf Hcons] & Hres).
  destruct best as [b|]; intros H; inversion H; subst; [|now left].
  right. destruct Hres as (Hlive & Hfit & Hcalc & Hgenes & _).
  set (best := deref (heap s') b) in *.
  assert (Hperm : Permutation (boxes best)
                    [mkBox 0 "a" 20 6; mkBox 1 "b" 30 5; mkBox 5 "f" 70 9]).
  { apply fitness_22_genes; [|exact Hcalc].
    eapply wf_genes_perm; [exact Hp | exact Hgenes]. }
  destruct (Hcons b Hlive) as (_ & Hw & Hv). fold best in Hw, Hv.
  destruct (permuted_genes_same_fitness best
              (mkChromosome [mkBox 0 "a" 20 6; mkBox 1 "b" 30 5; mkBox 5 "f" 70 9]
                            0 0 0) Hperm) as (Hsw & Hsv & _).
  eexists. split.
  - rewrite Hv, Hw, Hfit, Hsw, Hsv. reflexivity.
  - exact (Permutation_map (fun x => (name x, weight x, value x)) Hperm).
Qed.

Lemma script_outcomes_witness :
  exists lines, script (fun n => n) 0 = Some (Printed 20 22 120 lines).
Proof.
  assert (E : script (fun n => n) 0
              = Some (Printed 20 22 120
                        [("a"%string, 20, 6); ("f"%string, 70, 9);
                         ("b"%string, 30, 5)]))
    by (vm_compute; reflexivity).
  destruct (script_outcomes _ _ _ E) as [H|(lines & H & _)]; [discriminate H|].
  exists lines. rewrite E. now f_equal.
Defined.

(** ** Returning, and not returning *)

(** The re-draw loop returns at its first draw of another member. *)
Lemma redraw_first_other (tape : nat -> nat) (c : nat) (pop : list ref) (x : ref) :
  forall (k : nat) (y : ref) (fuel : nat) (s : State),
    (forall j, (j < k)%nat -> pick tape (cursor s + j)%nat pop = Some x) ->
    pick tape (cursor s + k)%nat pop = Some y -> y <> x ->
    ((fuel <= k)%nat -> redraw tape fuel c pop x x s = Spin c pop x)
    /\ ((k < fuel)%nat ->
        redraw tape fuel c pop x x s
        = Done (Ok y (mkState (cursor s + k + 1) (heap s)))).
Proof.
  induction k as [|k IH]; intros y fuel s Hbefore Hat Hne.
  - rewrite Nat.add_0_r in Hat. split; intros Hf.
    + assert (fuel = 0%nat) as -> by lia. simpl. now rewrite Nat.eqb_refl.
    + destruct fuel as [|fuel]; [lia|]. simpl.
      rewrite Nat.eqb_refl, choice_pick, Hat.
      assert (E : (x =? y)%nat = false) by (apply Nat.eqb_neq; congruence).
      destruct fuel; simpl; rewrite E; do 3 f_equal; lia.
  - assert (H0 : pick tape (cursor s) pop = Some x).
    { rewrite <- (Nat.add_0_r (cursor s)). apply Hbefore. lia. }
    destruct (IH y (pred fuel) (mkState (S (cursor s)) (heap s)))
      as [Hspin Hdone].
    { intros j Hj. cbn [cursor].
      replace (S (cursor s) + j)%nat with (cursor s + S j)%nat by lia.
      apply Hbefore. lia. }
    { cbn [cursor].
      now replace (S (cursor s) + k)%nat with (cursor s + S k)%nat by lia. }
    { exact Hne. }
    split; intros Hf.
    + destruct fuel as [|fuel]; simpl; rewrite Nat.eqb_refl; [reflexivity|].
      rewrite choice_pick, H0. apply Hspin. cbn [pred]. lia.
    + destruct fuel as [|fuel]; [lia|]. simpl.
      rewrite Nat.eqb_refl, choice_pick, H0.
      cbn [pred cursor heap] in Hdone. rewrite Hdone by lia.
      do 3 f_equal. lia.
Qed.

(** X16.  The re-draw loop of [genetic_algo], entered with the second
    parent identical to the first parent [x], makes exactly as many draws
    as it takes to select another member: if its first [k] draws select [x]
    and the next one selects [y], another object, it returns [y] after
    [k + 1] draws, the heap untouched, as soon as more than [k] re-draws
    are allowed; allowed [k] re-draws or fewer it is still in the loop. *)
Theorem redraw_returns_first_other_member
        (tape : nat -> nat) (pop : list ref) (x y : ref) (k fuel : nat) (s : State) :
  (forall j, (j < k)%nat -> pick tape (cursor s + j)%nat pop = Some x) ->
  pick tape (cursor s + k)%nat pop = Some y -> y <> x ->
  ((fuel <= k)%nat -> redraw_loop tape pop x x fuel s = Spin (cursor s) pop x)
  /\ ((k < fuel)%nat ->
      redraw_loop tape pop x x fuel s
      = Done (Ok y (mkState (cursor s + k + 1) (heap s)))).
Proof. unfold redraw_loop. apply redraw_first_other. Qed.

Lemma redraw_returns_first_other_member_witness :
  redraw_loop (fun n => n / 4)%nat [0%nat; 1%nat; 2%nat] 0%nat 0%nat 5%nat
              (mkState 0 [])
  = Done (Ok 1%nat (mkState 5 [])).
Proof.
  refine (proj2 (redraw_returns_first_other_member (fun n => n / 4)%nat
                   [0%nat; 1%nat; 2%nat] 0%nat 1%nat 4%nat 5%nat (mkState 0 [])
                   _ _ _) _).
  - intros j Hj. do 4 (destruct j as [|j]; [reflexivity|]). lia.
  - reflexivity.
  - discriminate.
  - lia.
Defined.

(** X17.  Over a population whose members are all one and the same object
    (a population of one chromosome, or the copies of a parent that
    [crossover] returns for parents holding the same boxes) [genetic_algo]
    never returns: with a positive [size] it is left in the re-draw loop of
    its first child, whatever the draws and however large the fuel. *)
Theorem genetic_algo_spins_on_one_object
        (tape : nat -> nat) (pop : Population) (box_list : list Box)
        (x : ref) (n : nat) (fuel : nat) (s : State) :
  population pop = repeat x (S n) -> 0 < size pop ->
  genetic_algo tape pop box_list fuel s
  = Spin (cursor s + 2) (population pop) x.
Proof.
  intros Hpop Hsize. unfold genetic_algo.
  cbn [generations Population_init size].
  destruct (Z.to_nat (size pop)) as [|m] eqn:E; [lia|].
  cbn [build_nextgen]. unfold breed.
  unfold bindF at 1. unfold bindF at 1. unfold bindF at 1.
  unfold lift at 1. rewrite choice_pick, Hpop, pick_repeat.
  unfold bindF at 1. unfold lift at 1.
  rewrite choice_pick. cbn [cursor heap]. rewrite pick_repeat.
  unfold bindF at 1. unfold redraw_loop. cbn [cursor heap].
  set (s2 := mkState (S (S (cursor s))) (heap s)).
  destruct (redraw_spin_or_exit tape (S (S (cursor s))) (repeat x (S n)) x fuel s2)
    as [Hspin|(j & Hj)].
  - rewrite Hspin. f_equal. lia.
  - exfalso. apply Hj. apply pick_repeat.
Qed.

Lemma genetic_algo_spins_on_one_object_witness :
  genetic_algo (fun n => n) (mkPopulation [0%nat] 1) the_boxes 50%nat
               (mkState 0 [mkChromosome [mkBox 0 "a" 20 6; mkBox 1 "b" 30 5;
                                         mkBox 5 "f" 70 9] 120 20 22])
  = Spin 2%nat [0%nat] 0%nat.
Proof.
  apply (genetic_algo_spins_on_one_object (fun n => n) (mkPopulation [0%nat] 1)
           the_boxes 0%nat 0%nat 50%nat).
  - reflexivity.
  - reflexivity.
Defined.
